(** * harness_wrapper.c: the AFL++ wrapper around the Python WebView harness

    A shallow embedding of [src/harness_wrapper.c].  The program is
    sequential C over POSIX system calls, so it is modelled as a computation
    in a small state-and-halt monad:

    - the operating system is an oracle [env] that fixes what every system
      call returns (whether [open] finds the file, how much each [read]
      delivers, whether [pipe], [fork], [dup2], [execlp], [write] and
      [waitpid] succeed, which descriptor numbers [open] and [pipe] hand
      out, and which signals end the process when raised);
    - the process state holds the unread part of the opened file, the stack
      array [input_buffer] with bounds-checked cells, whether descriptor 0
      is the pipe's read end, and the trace of the system calls made so far;
    - a computation either continues with a value or halts the process
      ([return] from [main], [exit], death by a raised signal or by the
      SIGPIPE of a [write] to a pipe nobody reads, a successful [execlp],
      or an out-of-bounds access).

    Signals sent to the process from outside (a SIGKILL or SIGINT arriving
    during a call) are not part of the model, and [fprintf] to the standard
    error stream is taken to return. *)

From Stdlib Require Import String DecimalString.
From Stdlib Require Import Strings.Byte.
From Stdlib Require Import ZArith List Bool Lia.
Import ListNotations.
Open Scope string_scope.
Open Scope list_scope.
Open Scope Z_scope.

(** ** Constants of the source *)

Definition MAX_INPUT_SIZE : Z := 1048576.
Definition PYTHON_SCRIPT : string := "./targeted_webview_harness.py".

(** [SIGSEGV] of <signal.h> (Linux numbering). *)
Definition SIGSEGV : Z := 11.

(** ** C integers *)

(** [size_t] is an unsigned 64-bit integer: arithmetic wraps modulo 2^64, and
    a (signed) [ssize_t] compared with a [size_t] is converted the same way. *)
Definition SIZE_MODULUS : Z := 2 ^ 64.
Definition size_t (x : Z) : Z := x mod SIZE_MODULUS.

(** [(signed char) x] for an [int] x. *)
Definition signed_char (x : Z) : Z :=
  let y := x mod 256 in if y <? 128 then y else y - 256.

(** ** Wait status macros of <sys/wait.h> (C library encoding) *)

Definition WTERMSIG (status : Z) : Z := Z.land status 127.
Definition WEXITSTATUS (status : Z) : Z := Z.shiftr (Z.land status 65280) 8.
Definition WIFEXITED (status : Z) : bool := WTERMSIG status =? 0.
Definition WIFSIGNALED (status : Z) : bool :=
  0 <? Z.shiftr (signed_char (Z.land status 127 + 1)) 1.
Definition W_EXITCODE (ret sig : Z) : Z := Z.lor (Z.shiftl ret 8) sig.

(** ** The stack array [input_buffer] *)

(** A cell is [None] until something is stored in it (the array is an
    uninitialised automatic variable). *)
Record buffer := mkBuf { buf_size : Z; buf_cell : Z -> option byte }.

Definition buf_new (n : Z) : buffer := mkBuf n (fun _ => None).

Definition in_bounds (b : buffer) (i : Z) : bool :=
  (0 <=? i) && (i <? buf_size b).

(** [b[i] = v]; [None] when [i] is outside the array. *)
Definition buf_store (b : buffer) (i : Z) (v : byte) : option buffer :=
  if in_bounds b i
  then Some (mkBuf (buf_size b) (fun j => if j =? i then Some v else buf_cell b j))
  else None.

(** Storing a run of bytes from offset [off] on (what the kernel does with the
    bytes a [read] delivers). *)
Fixpoint buf_store_bytes (b : buffer) (off : Z) (bs : list byte) : option buffer :=
  match bs with
  | [] => Some b
  | x :: rest =>
      match buf_store b off x with
      | Some b' => buf_store_bytes b' (off + 1) rest
      | None => None
      end
  end.

(** [b[i]] as an rvalue; [None] outside the array or on a cell never written. *)
Definition buf_get (b : buffer) (i : Z) : option byte :=
  if in_bounds b i then buf_cell b i else None.

(** The [n] bytes from offset [off] (what [write] sends). *)
Fixpoint buf_load (b : buffer) (off : Z) (n : nat) : option (list byte) :=
  match n with
  | O => Some []
  | S n' =>
      match buf_get b off, buf_load b (off + 1) n' with
      | Some x, Some rest => Some (x :: rest)
      | _, _ => None
      end
  end.

(** The C string starting at offset [off]: the bytes before the first zero
    byte (what [execlp] copies for a [char *] argument). *)
Fixpoint buf_cstring (b : buffer) (off : Z) (fuel : nat) : option (list byte) :=
  match fuel with
  | O => None
  | S fuel' =>
      match buf_get b off with
      | None => None
      | Some x =>
          if Byte.eqb x x00 then Some []
          else option_map (cons x) (buf_cstring b (off + 1) fuel')
      end
  end.

(** ** Operating system oracle, events and process state *)

(** What one call of [read] on the input file does: fail with -1, or deliver
    at most [k] bytes (a short read).  When the plan is used up every further
    [read] delivers all it can. *)
Inductive read_step := RdFail | RdUpTo (k : positive).

(** What the single [write] to the pipe does: fail with -1, accept at most
    [k] bytes, accept everything, or find that the pipe has no reader left
    (the child has exited or closed its standard input): the kernel then
    sends SIGPIPE to the writer, and [write] returns -1 only if that signal
    does not end the process. *)
Inductive write_step := WrFail | WrUpTo (k : N) | WrAll | WrBrokenPipe.

(** File descriptors of the program. *)
Inductive desc := FileFd | PipeRd | PipeWr.

(** The oracle.  [sig_fatal sig] says whether signal [sig], sent to the
    process by itself ([raise(sig)], or the SIGPIPE of a [write]), ends the
    process.  [main] changes no disposition and no mask, so this is decided
    by the state the process was started in and by the C library: a signal
    the program was started with ignored (SIG_IGN is kept across [execve])
    or blocked is not fatal, nor is one that [raise] refuses to send, and
    then [raise] returns.  [file_fd] and [pipe_fds] are the descriptor
    numbers the kernel hands out (the lowest ones free: 3, and 3 and 4, when
    descriptors 0, 1 and 2 are open at the start and nothing else is). *)
Record env := mkEnv {
  fs : string -> option (list byte);  (* open(path, O_RDONLY): the file's bytes *)
  read_plan : list read_step;         (* successive read() calls *)
  pipe_ok : bool;                     (* pipe() *)
  fork_ret : Z;                       (* fork(): -1, 0 in the child, the pid in the parent *)
  dup2_ok : bool;                     (* dup2() in the child *)
  exec_ok : bool;                     (* execlp() in the child *)
  write_plan : write_step;            (* write() in the parent *)
  wait_ret : option Z;                (* waitpid(): None for -1, else the status stored *)
  sig_fatal : Z -> bool;              (* does raise(sig) end the process? *)
  file_fd : N;                        (* the descriptor open() returns *)
  pipe_fds : N * N                    (* what pipe() stores in pipe_fd[0], pipe_fd[1] *)
}.

Inductive event :=
| EvOpen (path : string) (ok : bool)
| EvRead (off count ret : Z)
| EvClose (d : desc)
| EvStderr (msg : string)
| EvPipe (ok : bool)
| EvFork (ret : Z)
| EvDup2 (ok : bool)
| EvExec (args : list (list byte)) (ok : bool)
| EvWrite (data : list byte) (ret : Z)
| EvWaitpid (ret : option Z)
| EvRaise (sig : Z)
| EvSigpipe (data : list byte).

(** How a process ends.  [Execed] is a child that was replaced by the Python
    interpreter, with its arguments and whether its descriptor 0 is the
    pipe's read end; [Fault] is an access outside [input_buffer] or to a cell
    never written; [OutOfFuel] marks a loop cut off by the model. *)
Inductive proc_end :=
| Exit (code : Z)
| Signaled (sig : Z)
| Execed (args : list (list byte)) (stdin_is_pipe : bool)
| Fault
| OutOfFuel.

Record state := mkState {
  file_rest : list byte;       (* unread bytes of the opened file *)
  plan_rest : list read_step;  (* read() behaviours not yet used *)
  input_buffer : buffer;
  stdin_is_pipe : bool;        (* is descriptor 0 the pipe's read end? *)
  trace : list event
}.

Definition initial_state : state :=
  mkState [] [] (buf_new MAX_INPUT_SIZE) false [].

(** ** The monad *)

Inductive result (A : Type) :=
| Next (a : A)
| Halt (p : proc_end).
Arguments Next {A} a.
Arguments Halt {A} p.

Definition M (A : Type) : Type := state -> result A * state.

Definition ret {A} (a : A) : M A := fun s => (Next a, s).

Definition bind {A B} (m : M A) (k : A -> M B) : M B :=
  fun s =>
    match m s with
    | (Next a, s') => k a s'
    | (Halt p, s') => (Halt p, s')
    end.

Definition halt {A} (p : proc_end) : M A := fun s => (Halt p, s).

Declare Scope proc_scope.
Delimit Scope proc_scope with proc.
Notation "x <- m ;; k" := (bind m (fun x => k))
  (at level 100, m at next level, right associativity) : proc_scope.
Notation "m ;; k" := (bind m (fun _ => k))
  (at level 100, right associativity) : proc_scope.
Open Scope proc_scope.

Definition log (ev : event) : M unit :=
  fun s => (Next tt,
            mkState (file_rest s) (plan_rest s) (input_buffer s)
                    (stdin_is_pipe s) (trace s ++ [ev])).

(** ** System calls *)

Definition fprintf_stderr (msg : string) : M unit := log (EvStderr msg).

(** [close(fd)], where [d] names the descriptor of the program that holds
    the number [fd].  Closing number 0 leaves the process without the
    standard input it had. *)
Definition sys_close (d : desc) (fd : Z) : M unit :=
  fun s =>
    (Next tt,
     mkState (file_rest s) (plan_rest s) (input_buffer s)
             (if fd =? 0 then false else stdin_is_pipe s)
             (trace s ++ [EvClose d])).

(** [open(filename, O_RDONLY)]: -1, or a descriptor positioned at the start
    of the file. *)
Definition sys_open (e : env) (filename : string) : M Z :=
  fun s =>
    match fs e filename with
    | None =>
        (Next (-1),
         mkState (file_rest s) (plan_rest s) (input_buffer s) (stdin_is_pipe s)
                 (trace s ++ [EvOpen filename false]))
    | Some content =>
        (Next (Z.of_N (file_fd e)),
         mkState content (read_plan e) (input_buffer s) (stdin_is_pipe s)
                 (trace s ++ [EvOpen filename true]))
    end.

(** How many bytes a [read] asking for [count] delivers. *)
Definition read_amount (step : option read_step) (count : Z) (avail : list byte) : Z :=
  match step with
  | Some RdFail => -1
  | Some (RdUpTo k) => Z.min count (Z.min (Z.pos k) (Z.of_nat (length avail)))
  | None => Z.min count (Z.of_nat (length avail))
  end.

(** [read(fd, buffer + off, count)]: the kernel stores the delivered bytes in
    the array from offset [off] on and returns their number, or returns -1. *)
Definition sys_read (off count : Z) : M Z :=
  fun s =>
    let r := read_amount (hd_error (plan_rest s)) count (file_rest s) in
    let t := trace s ++ [EvRead off count r] in
    if r <? 0 then
      (Next r, mkState (file_rest s) (tl (plan_rest s)) (input_buffer s)
                       (stdin_is_pipe s) t)
    else
      let n := Z.to_nat r in
      match buf_store_bytes (input_buffer s) off (firstn n (file_rest s)) with
      | Some b =>
          (Next r, mkState (skipn n (file_rest s)) (tl (plan_rest s)) b
                           (stdin_is_pipe s) t)
      | None =>
          (Halt Fault, mkState (skipn n (file_rest s)) (tl (plan_rest s))
                               (input_buffer s) (stdin_is_pipe s) t)
      end.

(** [input_buffer[i] = v]. *)
Definition store (i : Z) (v : byte) : M unit :=
  fun s =>
    match buf_store (input_buffer s) i v with
    | Some b =>
        (Next tt, mkState (file_rest s) (plan_rest s) b (stdin_is_pipe s) (trace s))
    | None => (Halt Fault, s)
    end.

(** The numbers in [pipe_fd[0]] (the read end) and [pipe_fd[1]] (the write
    end) after a successful [pipe(pipe_fd)]. *)
Definition pipe_fd (e : env) (i : nat) : Z :=
  match i with
  | O => Z.of_N (fst (pipe_fds e))
  | _ => Z.of_N (snd (pipe_fds e))
  end.

(** [pipe(pipe_fd)].  The read end may be given number 0, when the program
    was started without a standard input. *)
Definition sys_pipe (e : env) : M Z :=
  fun s =>
    let t := trace s ++ [EvPipe (pipe_ok e)] in
    if pipe_ok e
    then (Next 0, mkState (file_rest s) (plan_rest s) (input_buffer s)
                          (if pipe_fd e 0 =? 0 then true else stdin_is_pipe s) t)
    else (Next (-1), mkState (file_rest s) (plan_rest s) (input_buffer s)
                             (stdin_is_pipe s) t).

Definition sys_fork (e : env) : M Z :=
  log (EvFork (fork_ret e));; ret (fork_ret e).

(** [STDIN_FILENO] of <unistd.h>. *)
Definition STDIN_FILENO : Z := 0.

(** [dup2(oldfd, STDIN_FILENO)] with [oldfd] the pipe's read end.  When the
    two numbers are equal the call changes nothing and returns the number;
    otherwise descriptor 0 becomes a copy of the read end. *)
Definition sys_dup2 (e : env) (oldfd : Z) : M Z :=
  fun s =>
    let t := trace s ++ [EvDup2 (dup2_ok e)] in
    if dup2_ok e
    then (Next STDIN_FILENO,
          mkState (file_rest s) (plan_rest s) (input_buffer s)
                  (if oldfd =? STDIN_FILENO then stdin_is_pipe s else true) t)
    else (Next (-1), mkState (file_rest s) (plan_rest s) (input_buffer s)
                             (stdin_is_pipe s) t).

(** [execlp("python3", "python3", PYTHON_SCRIPT, input_buffer, NULL)]: the
    last argument is read as a C string.  On success the process image is
    replaced and nothing after the call runs. *)
Definition sys_execlp (e : env) : M Z :=
  fun s =>
    match buf_cstring (input_buffer s) 0 (Z.to_nat (buf_size (input_buffer s))) with
    | None => (Halt Fault, s)
    | Some arg =>
        let args := [list_byte_of_string "python3";
                     list_byte_of_string PYTHON_SCRIPT; arg] in
        let s' := mkState (file_rest s) (plan_rest s) (input_buffer s)
                          (stdin_is_pipe s) (trace s ++ [EvExec args (exec_ok e)]) in
        if exec_ok e then (Halt (Execed args (stdin_is_pipe s)), s')
        else (Next (-1), s')
    end.

(** [SIGPIPE] of <signal.h> (Linux numbering). *)
Definition SIGPIPE : Z := 13.

(** What a [write] of [count] bytes returns, when it returns (-1 with EPIPE
    for a pipe without reader). *)
Definition write_amount (step : write_step) (count : Z) : Z :=
  match step with
  | WrFail => -1
  | WrUpTo k => Z.min count (Z.of_N k)
  | WrAll => count
  | WrBrokenPipe => -1
  end.

(** Does the [write] end the process, by the SIGPIPE of a pipe without
    reader? *)
Definition write_kills (e : env) : bool :=
  match write_plan e with
  | WrBrokenPipe => sig_fatal e SIGPIPE
  | _ => false
  end.

(** [write(pipe_fd[1], input_buffer, count)]. *)
Definition sys_write (e : env) (count : Z) : M Z :=
  fun s =>
    match buf_load (input_buffer s) 0 (Z.to_nat count) with
    | None => (Halt Fault, s)
    | Some data =>
        if write_kills e then
          (Halt (Signaled SIGPIPE),
           mkState (file_rest s) (plan_rest s) (input_buffer s)
                   (stdin_is_pipe s) (trace s ++ [EvSigpipe data]))
        else
          let r := write_amount (write_plan e) count in
          (Next r, mkState (file_rest s) (plan_rest s) (input_buffer s)
                           (stdin_is_pipe s) (trace s ++ [EvWrite data r]))
    end.

(** [waitpid(pid, &status, 0)]: the return value (-1 or the pid) and the
    status stored. *)
Definition sys_waitpid (e : env) (pid : Z) : M (Z * Z) :=
  log (EvWaitpid (wait_ret e));;
  ret (match wait_ret e with
       | None => (-1, 0)
       | Some status => (pid, status)
       end).

(** [raise(sig)]: the signal is delivered before [raise] returns; when its
    delivery ends the process, [raise] does not return. *)
Definition sys_raise (e : env) (sig : Z) : M unit :=
  log (EvRaise sig);;
  if sig_fatal e sig then halt (Signaled sig) else ret tt.

(** [return code] from [main], and [exit(code)]. *)
Definition exit {A} (code : Z) : M A := halt (Exit code).

(** The newline character that ends every diagnostic line. *)
Definition newline : string := String (Ascii.ascii_of_nat 10) EmptyString.

(** [%d] of [fprintf]. *)
Definition fmt_d (n : Z) : string := NilZero.string_of_int (Z.to_int n).

(** ** read_file (lines 23-41) *)

Definition truncation_warning : string :=
  String.append "Warning: Input exceeded MAX_INPUT_SIZE, truncating." newline.

(** The [while] loop of lines 31-37.  Every iteration that goes round again
    has consumed at least one byte of the file, so the loop body runs at most
    once more than the file has bytes; [fuel] counts the iterations left. *)
Fixpoint read_loop (fuel : nat) (max_size bytes_read : Z) : M Z :=
  match fuel with
  | O => halt OutOfFuel
  | S fuel' =>
      current_read <- sys_read bytes_read (size_t (max_size - bytes_read));;
      if 0 <? current_read then
        let bytes_read := size_t (bytes_read + size_t current_read) in
        if max_size <=? bytes_read then
          fprintf_stderr truncation_warning;;
          ret bytes_read
        else read_loop fuel' max_size bytes_read
      else ret bytes_read
  end.

Definition read_file (e : env) (filename : string) (max_size : Z) : M Z :=
  fd <- sys_open e filename;;
  if fd =? -1 then ret 0
  else
    bytes_read <- (fun s => read_loop (S (length (file_rest s))) max_size 0 s);;
    sys_close FileFd fd;;
    ret bytes_read.

(** ** main (lines 43-119) *)

Definition line (msg : string) : string := String.append msg newline.

(** The diagnostics of [main], in the order of the source. *)
Definition msg_usage (name : string) : string :=
  line (String.append "Usage: " (String.append name " <input_file>")).
Definition msg_no_input : string := line "Error: No input read from file".
Definition msg_pipe : string := line "Error: Failed to create pipe".
Definition msg_fork : string := line "Error: Failed to fork process".
Definition msg_dup2 : string := line "Error: Failed to redirect stdin".
Definition msg_exec : string := line "Error: Failed to execute Python script".
Definition msg_write : string := line "Error: Failed to write to pipe".
Definition msg_wait : string := line "Error: Failed to wait for child process".
Definition msg_vulnerability : string :=
  line "Python harness detected vulnerability, propagating crash".
Definition msg_signal (signal_num : Z) : string :=
  line (String.append "Python harness terminated by signal: "
          (String.append (fmt_d signal_num) ", propagating crash")).
Definition msg_abnormal : string := line "Python harness terminated abnormally".

(** Lines 102-116: the branch on the wait status.  The two branches that
    raise a signal do not return from [main] themselves: when [raise] comes
    back, control goes on to what follows the branch. *)
Definition translate (e : env) (status : Z) : M unit :=
  if WIFEXITED status then
    let exit_code := WEXITSTATUS status in
    (if negb (exit_code =? 0) then
       fprintf_stderr msg_vulnerability;;
       sys_raise e SIGSEGV
     else ret tt);;
    exit 0
  else if WIFSIGNALED status then
    let signal_num := WTERMSIG status in
    fprintf_stderr (msg_signal signal_num);;
    sys_raise e signal_num
  else
    fprintf_stderr msg_abnormal;;
    exit 1.

(** Lines 79-88: the child. *)
Definition main_child (e : env) : M unit :=
  sys_close PipeWr (pipe_fd e 1);;
  r <- sys_dup2 e (pipe_fd e 0);;
  (if r =? -1 then
     fprintf_stderr msg_dup2;;
     exit 1
   else ret tt);;
  sys_close PipeRd (pipe_fd e 0);;
  sys_execlp e;;
  fprintf_stderr msg_exec;;
  exit 1.

(** Lines 90-117: the parent. *)
Definition main_parent (e : env) (bytes_read pid : Z) : M unit :=
  sys_close PipeRd (pipe_fd e 0);;
  w <- sys_write e bytes_read;;
  (if negb (size_t w =? bytes_read) then
     fprintf_stderr msg_write;;
     sys_close PipeWr (pipe_fd e 1);;
     exit 1
   else ret tt);;
  sys_close PipeWr (pipe_fd e 1);;
  ws <- sys_waitpid e pid;;
  (if fst ws =? -1 then
     fprintf_stderr msg_wait;;
     exit 1
   else ret tt);;
  translate e (snd ws).

(** [argv[0]] as [%s] prints it ([argc] can be 0, where the C library prints
    a null pointer as "(null)"). *)
Definition program_name (argv : list string) : string := nth 0 argv "(null)".

Definition main (e : env) (argv : list string) : M Z :=
  let argc := Z.of_nat (length argv) in
  (if argc <? 2 then
     fprintf_stderr (msg_usage (program_name argv));;
     exit 1
   else ret tt);;
  bytes_read <- read_file e (nth 1 argv "") (MAX_INPUT_SIZE - 1);;
  (if bytes_read =? 0 then
     fprintf_stderr msg_no_input;;
     exit 1
   else ret tt);;
  store bytes_read x00;;
  r <- sys_pipe e;;
  (if r =? -1 then
     fprintf_stderr msg_pipe;;
     exit 1
   else ret tt);;
  pid <- sys_fork e;;
  (if pid =? -1 then
     fprintf_stderr msg_fork;;
     exit 1
   else ret tt);;
  (if pid =? 0 then main_child e else main_parent e bytes_read pid);;
  ret 0.

(** Running a computation as a process: returning [code] from [main] ends
    the process like [exit(code)]. *)
Definition finish (m : M Z) (s : state) : proc_end * state :=
  match m s with
  | (Next code, s') => (Exit code, s')
  | (Halt p, s') => (p, s')
  end.

Definition run (e : env) (argv : list string) : proc_end * state :=
  finish (main e argv) initial_state.

Definition run_end (e : env) (argv : list string) : proc_end := fst (run e argv).
Definition run_trace (e : env) (argv : list string) : list event :=
  trace (snd (run e argv)).

(** ** Test environments *)

Definition bytes (s : string) : list byte := list_byte_of_string s.

(** The signals that end a process which sends them to itself, when the
    process was started with every disposition at its default and no signal
    blocked, on Linux with the GNU C library: the numbers 1 to 64, without
    those whose default action is to ignore, stop or continue (17 to 23 and
    28) and without the two the library keeps for itself and refuses to
    raise (32 and 33). *)
Definition default_fatal (sig : Z) : bool :=
  (1 <=? sig) && (sig <=? 64) &&
  negb (existsb (Z.eqb sig) [17; 18; 19; 20; 21; 22; 23; 28; 32; 33]).

(** An environment in which everything works: one file "in" with the given
    bytes, descriptors 0, 1 and 2 open at the start, the parent's view of a
    successful fork, a child that ends with wait status [status], and
    signals as in [default_fatal]. *)
Definition env_ok (content : list byte) (status : Z) : env :=
  mkEnv (fun p => if String.eqb p "in" then Some content else None)
        [] true 4242 true true WrAll (Some status) default_fatal 3 (3, 4)%N.

Definition args_in : list string := ["wrapper"; "in"].

(** * Vocabulary of the verification *)

(** ** The array *)

(** The bytes before the first zero byte of a byte sequence. *)
Fixpoint c_string (bs : list byte) : list byte :=
  match bs with
  | [] => []
  | x :: rest => if Byte.eqb x x00 then [] else x :: c_string rest
  end.

(** [holds b data]: the array starts with [data], all of it written. *)
Definition holds (b : buffer) (data : list byte) : Prop :=
  Z.of_nat (length data) <= buf_size b /\
  forall i x, nth_error data i = Some x -> buf_cell b (Z.of_nat i) = Some x.

(** ** The read loop *)

Definition no_fail (step : read_step) : Prop := step <> RdFail.

(** A [read] that delivered at least one byte. *)
Definition positive_read (ev : event) : Prop :=
  match ev with
  | EvRead _ _ r => 0 < r
  | _ => False
  end.

(** What the loader may do: reads whose destination range lies within the
    first [max_size] bytes of the array, and the truncation warning. *)
Definition read_event_within (max_size : Z) (ev : event) : Prop :=
  match ev with
  | EvRead off count r => 0 <= off /\ 0 <= count /\ off + count <= max_size /\ r <= count
  | EvStderr msg => msg = truncation_warning
  | _ => False
  end.

(** The state reached and the value returned by the loop, started with
    [n] bytes ([data]) already in the array. *)
Definition loop_post (max_size n : Z) (data : list byte) (s : state)
    (out : result Z * state) : Prop :=
  exists n' chunk evs s',
    out = (Next n', s') /\
    n' = n + Z.of_nat (length chunk) /\
    n' <= max_size /\
    file_rest s = chunk ++ file_rest s' /\
    holds (input_buffer s') (data ++ chunk) /\
    buf_size (input_buffer s') = buf_size (input_buffer s) /\
    stdin_is_pipe s' = stdin_is_pipe s /\
    trace s' = trace s ++ evs /\
    Forall (read_event_within max_size) evs /\
    (In (EvStderr truncation_warning) evs <-> n < n' /\ n' = max_size) /\
    (In (EvStderr truncation_warning) evs ->
     exists reads, evs = reads ++ [EvStderr truncation_warning] /\
                   Forall positive_read reads) /\
    (Forall no_fail (plan_rest s) ->
     chunk = firstn (Z.to_nat (max_size - n)) (file_rest s)).

(** ** read_file *)

(** The events of the loader: [open], [close] of the file, and those of the
    read loop. *)
Definition loader_event (max_size : Z) (ev : event) : Prop :=
  match ev with
  | EvOpen _ _ => True
  | EvClose FileFd => True
  | _ => read_event_within max_size ev
  end.

Definition load_post (e : env) (filename : string) (max_size : Z) (s : state)
    (out : result Z * state) : Prop :=
  exists n payload evs s',
    out = (Next n, s') /\
    n = Z.of_nat (length payload) /\
    n <= max_size /\
    holds (input_buffer s') payload /\
    buf_size (input_buffer s') = buf_size (input_buffer s) /\
    (stdin_is_pipe s = false -> stdin_is_pipe s' = false) /\
    trace s' = trace s ++ evs /\
    Forall (loader_event max_size) evs /\
    (In (EvStderr truncation_warning) evs <-> 0 < n /\ n = max_size) /\
    (In (EvStderr truncation_warning) evs ->
     exists reads,
       evs = EvOpen filename true
               :: reads ++ [EvStderr truncation_warning; EvClose FileFd] /\
       Forall positive_read reads) /\
    match fs e filename with
    | None => payload = [] /\ evs = [EvOpen filename false]
    | Some content =>
        (exists rest, content = payload ++ rest) /\
        (Forall no_fail (read_plan e) ->
         payload = firstn (Z.to_nat max_size) content)
    end.

(** ** The straight-line part of main *)

(** After the loader, [main] has no loop: what it does is a finite case
    split on the oracle.  The functions below list, case by case, the events
    and the end of the process; [after_load_run] proves that they describe
    [main]. *)

Definition exec_args (payload : list byte) : list (list byte) :=
  [bytes "python3"; bytes PYTHON_SCRIPT; c_string payload].

Definition translate_events (status : Z) : list event :=
  if WIFEXITED status then
    if negb (WEXITSTATUS status =? 0)
    then [EvStderr msg_vulnerability; EvRaise SIGSEGV]
    else []
  else if WIFSIGNALED status then
    [EvStderr (msg_signal (WTERMSIG status)); EvRaise (WTERMSIG status)]
  else [EvStderr msg_abnormal].

Definition translate_end (e : env) (status : Z) : proc_end :=
  if WIFEXITED status then
    if negb (WEXITSTATUS status =? 0)
    then (if sig_fatal e SIGSEGV then Signaled SIGSEGV else Exit 0)
    else Exit 0
  else if WIFSIGNALED status then
    (if sig_fatal e (WTERMSIG status) then Signaled (WTERMSIG status) else Exit 0)
  else Exit 1.

Definition child_events (e : env) (payload : list byte) : list event :=
  EvClose PipeWr :: EvDup2 (dup2_ok e) ::
  (if dup2_ok e then
     EvClose PipeRd :: EvExec (exec_args payload) (exec_ok e) ::
     (if exec_ok e then [] else [EvStderr msg_exec])
   else [EvStderr msg_dup2]).

(** Whether the interpreter finds the pipe on descriptor 0: not when the
    read end itself had number 0, for then line 81 changes nothing and line
    85 closes descriptor 0. *)
Definition child_stdin_is_pipe (e : env) : bool := negb (pipe_fd e 0 =? 0).

Definition child_end (e : env) (payload : list byte) : proc_end :=
  if dup2_ok e && exec_ok e
  then Execed (exec_args payload) (child_stdin_is_pipe e)
  else Exit 1.

Definition written (e : env) (payload : list byte) : Z :=
  write_amount (write_plan e) (Z.of_nat (length payload)).

Definition write_complete (e : env) (payload : list byte) : bool :=
  size_t (written e payload) =? Z.of_nat (length payload).

Definition parent_events (e : env) (payload : list byte) : list event :=
  if write_kills e then [EvClose PipeRd; EvSigpipe payload]
  else
  EvClose PipeRd :: EvWrite payload (written e payload) ::
  (if write_complete e payload then
     EvClose PipeWr :: EvWaitpid (wait_ret e) ::
     match wait_ret e with
     | None => [EvStderr msg_wait]
     | Some status => translate_events status
     end
   else [EvStderr msg_write; EvClose PipeWr]).

Definition parent_end (e : env) (payload : list byte) : proc_end :=
  if write_kills e then Signaled SIGPIPE
  else if write_complete e payload then
    match wait_ret e with
    | None => Exit 1
    | Some status => translate_end e status
    end
  else Exit 1.

Definition bridge_events (e : env) (payload : list byte) : list event :=
  EvPipe (pipe_ok e) ::
  (if pipe_ok e then
     EvFork (fork_ret e) ::
     (if fork_ret e =? -1 then [EvStderr msg_fork]
      else if fork_ret e =? 0 then child_events e payload
      else parent_events e payload)
   else [EvStderr msg_pipe]).

Definition bridge_end (e : env) (payload : list byte) : proc_end :=
  if pipe_ok e then
    if fork_ret e =? -1 then Exit 1
    else if fork_ret e =? 0 then child_end e payload
    else parent_end e payload
  else Exit 1.

(** Lines 63-118 of [main]. *)
Definition after_load (e : env) (bytes_read : Z) : M Z :=
  store bytes_read x00;;
  r <- sys_pipe e;;
  (if r =? -1 then
     fprintf_stderr msg_pipe;;
     exit 1
   else ret tt);;
  pid <- sys_fork e;;
  (if pid =? -1 then
     fprintf_stderr msg_fork;;
     exit 1
   else ret tt);;
  (if pid =? 0 then main_child e else main_parent e bytes_read pid);;
  ret 0.

(** [m] run from [s] ends the process with [p] after the events [evs]. *)
Definition ends_with (m : M Z) (s : state) (p : proc_end) (evs : list event) : Prop :=
  exists s', finish m s = (p, s') /\ trace s' = trace s ++ evs.

Ltac run_step :=
  unfold bind, fprintf_stderr, sys_close, sys_pipe, sys_fork, sys_dup2,
    sys_waitpid, sys_raise, log, ret, exit, halt; simpl.

(** How [translate] leaves: by falling through (a raised signal that was
    not fatal) or by ending the process. *)
Definition translate_result (e : env) (status : Z) : result unit :=
  if WIFEXITED status then
    if negb (WEXITSTATUS status =? 0)
    then (if sig_fatal e SIGSEGV then Halt (Signaled SIGSEGV) else Halt (Exit 0))
    else Halt (Exit 0)
  else if WIFSIGNALED status then
    (if sig_fatal e (WTERMSIG status)
     then Halt (Signaled (WTERMSIG status)) else Next tt)
  else Halt (Exit 1).

(** ** main as a whole *)

(** What the loader leaves behind when [main] calls it (line 56): the bytes
    [payload] in the array and the events [evs]. *)
Record loaded (e : env) (filename : string) (payload : list byte)
    (evs : list event) : Prop := mkLoaded {
  ld_read_file :
    exists s', read_file e filename (MAX_INPUT_SIZE - 1) initial_state
                 = (Next (Z.of_nat (length payload)), s') /\
               trace s' = evs /\ holds (input_buffer s') payload;
  ld_size : Z.of_nat (length payload) <= MAX_INPUT_SIZE - 1;
  ld_events : Forall (loader_event (MAX_INPUT_SIZE - 1)) evs;
  ld_warning :
    In (EvStderr truncation_warning) evs <->
    Z.of_nat (length payload) = MAX_INPUT_SIZE - 1;
  ld_warning_last :
    In (EvStderr truncation_warning) evs ->
    exists reads,
      evs = EvOpen filename true
              :: reads ++ [EvStderr truncation_warning; EvClose FileFd] /\
      Forall positive_read reads;
  ld_file :
    match fs e filename with
    | None => payload = [] /\ evs = [EvOpen filename false]
    | Some content =>
        (exists rest, content = payload ++ rest) /\
        (Forall no_fail (read_plan e) ->
         payload = firstn (Z.to_nat (MAX_INPUT_SIZE - 1)) content)
    end
}.

Definition tail_events (e : env) (payload : list byte) : list event :=
  match payload with
  | [] => [EvStderr msg_no_input]
  | _ :: _ => bridge_events e payload
  end.

Definition tail_end (e : env) (payload : list byte) : proc_end :=
  match payload with
  | [] => Exit 1
  | _ :: _ => bridge_end e payload
  end.

(** ** Parent runs *)

(** A call of [write] on the pipe, returned or not. *)
Definition is_write (ev : event) : bool :=
  match ev with EvWrite _ _ | EvSigpipe _ => true | _ => false end.

Definition is_waitpid (ev : event) : bool :=
  match ev with EvWaitpid _ => true | _ => false end.

Definition is_raise (ev : event) : bool :=
  match ev with EvRaise _ => true | _ => false end.

(** Creating the channel or the child: [pipe], [fork], and what only the
    child does ([dup2], [execlp]). *)
Definition is_spawn (ev : event) : bool :=
  match ev with
  | EvPipe _ | EvFork _ | EvDup2 _ | EvExec _ _ => true
  | _ => false
  end.

(** A run of [main] that got as far as the parent's branch (line 90). *)
Record parent_reached (e : env) (argv : list string) (payload : list byte)
    (evs : list event) : Prop := mkParentReached {
  pr_loaded : loaded e (nth 1 argv "") payload evs;
  pr_nonempty : payload <> [];
  pr_pipe : pipe_ok e = true;
  pr_fork : fork_ret e <> -1 /\ fork_ret e <> 0;
  pr_end : run_end e argv = parent_end e payload;
  pr_trace :
    run_trace e argv =
    evs ++ EvPipe true :: EvFork (fork_ret e) :: parent_events e payload
}.

Ltac in_cases H :=
  simpl in H;
  repeat match type of H with
         | _ \/ _ => destruct H as [H|H]
         | False => contradiction
         end.

(** ** The translation step *)

(** How the child ended, as [main] reads the wait status: the three-way
    branch of lines 102, 109 and 113, in that order. *)
Inductive ChildOutcome :=
| ExitedWithCode (code : Z)
| TerminatedBySignal (sig : Z)
| Abnormal.

Definition classify (status : Z) : ChildOutcome :=
  if WIFEXITED status then ExitedWithCode (WEXITSTATUS status)
  else if WIFSIGNALED status then TerminatedBySignal (WTERMSIG status)
  else Abnormal.

(** The signal [main] raises for a wait status (lines 106 and 112). *)
Definition raised_signal (status : Z) : option Z :=
  match classify status with
  | ExitedWithCode code => if code =? 0 then None else Some SIGSEGV
  | TerminatedBySignal sig => Some sig
  | Abnormal => None
  end.

(** Like [env_ok], with the signals for which [ignored] holds not fatal (a
    disposition of SIG_IGN inherited by the wrapper, as under nohup). *)
Definition env_ignoring (ignored : Z -> bool) (content : list byte) (status : Z) : env :=
  mkEnv (fun p => if String.eqb p "in" then Some content else None)
        [] true 4242 true true WrAll (Some status) (fun sig => default_fatal sig && negb (ignored sig)) 3 (3, 4)%N.

Ltac find_in := vm_compute; repeat first [left; reflexivity | right].

(** ** Transfer and wait *)

Definition is_close_write (ev : event) : bool :=
  match ev with EvClose PipeWr => true | _ => false end.

(** Before the write: no write, no wait, and the write end still open. *)
Definition before_write (ev : event) : Prop :=
  is_write ev = false /\ is_waitpid ev = false /\ is_close_write ev = false.

(** After the wait: no write and no second wait. *)
Definition after_wait (ev : event) : Prop :=
  is_write ev = false /\ is_waitpid ev = false.

(** An environment like [env_ok] in which [write] accepts at most [k] bytes. *)
Definition env_short_write (k : N) (content : list byte) : env :=
  mkEnv (fun p => if String.eqb p "in" then Some content else None)
        [] true 4242 true true (WrUpTo k) (Some 0) default_fatal 3 (3, 4)%N.

(** ** Empty input *)

(** Line 56 returned 0. *)
Definition zero_bytes_read (e : env) (filename : string) : Prop :=
  fst (read_file e filename (MAX_INPUT_SIZE - 1) initial_state) = Next 0.

(** An environment with no file at all. *)
Definition env_no_file : env :=
  mkEnv (fun _ => None) [] true 4242 true true WrAll (Some 0) default_fatal 3 (3, 4)%N.

(** ** Truncation *)

(** An environment whose file "in" is read at most [k] bytes at a time for
    the first two reads. *)
Definition env_chunked (k : positive) (content : list byte) : env :=
  mkEnv (fun p => if String.eqb p "in" then Some content else None)
        [RdUpTo k; RdUpTo k] true 4242 true true WrAll (Some 0) default_fatal 3 (3, 4)%N.

(** ** Memory safety of the array *)

(** A [read] whose destination range lies within the first [max_size] bytes
    of the array and that returns no more than it was asked for. *)
Definition read_in_bounds (max_size : Z) (ev : event) : Prop :=
  match ev with
  | EvRead off count r =>
      0 <= off /\ 0 <= count /\ off + count <= max_size /\ r <= count
  | _ => True
  end.

Definition is_read (ev : event) : bool :=
  match ev with EvRead _ _ _ => true | _ => false end.

(** ** Parent and child together *)

(** [fork] makes two processes run [main] from line 72 on: the child, in
    which [fork] returned 0, and the parent, in which it returned the
    child's pid and in which [waitpid] stores the status the child ended
    with.  [e] is the oracle as the parent sees it; [image_status] is the
    wait status of the Python interpreter once the child has become it. *)

Definition with_fork (e : env) (r : Z) : env :=
  mkEnv (fs e) (read_plan e) (pipe_ok e) r (dup2_ok e) (exec_ok e)
        (write_plan e) (wait_ret e) (sig_fatal e) (file_fd e) (pipe_fds e).

Definition with_wait (e : env) (w : option Z) : env :=
  mkEnv (fs e) (read_plan e) (pipe_ok e) (fork_ret e) (dup2_ok e) (exec_ok e)
        (write_plan e) w (sig_fatal e) (file_fd e) (pipe_fds e).

Definition with_exec (e : env) (ok : bool) : env :=
  mkEnv (fs e) (read_plan e) (pipe_ok e) (fork_ret e) (dup2_ok e) ok
        (write_plan e) (wait_ret e) (sig_fatal e) (file_fd e) (pipe_fds e).

(** The wait status of a child that ended with [p]. *)
Definition child_status (image_status : Z) (p : proc_end) : Z :=
  match p with
  | Exit code => W_EXITCODE (Z.land code 255) 0
  | Signaled sig => W_EXITCODE 0 sig
  | Execed _ _ => image_status
  | Fault | OutOfFuel => W_EXITCODE 0 SIGSEGV
  end.

(** What can be observed of a process: how it ended, and its events. *)
Definition observe (e : env) (argv : list string) : proc_end * list event :=
  (run_end e argv, run_trace e argv).

Definition child_of (e : env) (argv : list string) : proc_end * list event :=
  observe (with_fork e 0) argv.

Definition parent_of (e : env) (image_status : Z) (argv : list string)
    : proc_end * list event :=
  observe
    (with_wait e
       (option_map (fun _ => child_status image_status (fst (child_of e argv)))
                   (wait_ret e)))
    argv.

(** The bytes that went into the pipe: of each [write] that returned, the
    part accepted. *)
Definition pipe_bytes (tr : list event) : list byte :=
  flat_map (fun ev => match ev with
                      | EvWrite data r => firstn (Z.to_nat r) data
                      | _ => []
                      end) tr.

(** ** Failure of execlp *)

(** The oracle of [env_ok] with an [execlp] that fails. *)
Definition env_exec_fails (content : list byte) : env :=
  mkEnv (fun p => if String.eqb p "in" then Some content else None)
        [] true 4242 true false WrAll (Some 0) default_fatal 3 (3, 4)%N.

(** ** Further properties *)

(** The oracle of [env_ok] with chosen answers of [pipe], [fork], [dup2]
    and [waitpid]. *)
Definition env_with (pipe_ans : bool) (fork_ans : Z) (dup2_ans : bool)
    (wait_ans : option Z) (content : list byte) : env :=
  mkEnv (fun p => if String.eqb p "in" then Some content else None)
        [] pipe_ans fork_ans dup2_ans true WrAll wait_ans default_fatal 3 (3, 4)%N.

(** A child ([fork] returned 0) of a program started with descriptor 0
    closed: [open] and then [pipe] are given the lowest free number, so the
    input file and later the pipe's read end are descriptor 0. *)
Definition env_no_stdin (exec_ans : bool) (content : list byte) : env :=
  mkEnv (fun p => if String.eqb p "in" then Some content else None)
        [] true 0 true exec_ans WrAll (Some 0) default_fatal 0 (0, 3)%N.

(** The diagnostics that go with exit code 1. *)
Definition diagnostics (argv : list string) : list string :=
  [msg_usage (program_name argv); msg_no_input; msg_pipe; msg_fork; msg_dup2;
   msg_exec; msg_write; msg_wait; msg_abnormal].

(** How the loop leaves: after reads that all delivered bytes, either by
    the warning (capacity reached) or by a [read] that delivered nothing. *)
Definition loop_exit (max_size n' : Z) (final : event) : Prop :=
  (final = EvStderr truncation_warning /\ n' = max_size) \/
  (exists r, final = EvRead n' (max_size - n') r /\ r <= 0).



(** An environment whose file "in" delivers two bytes and then fails. *)
Definition env_read_error (content : list byte) : env :=
  mkEnv (fun p => if String.eqb p "in" then Some content else None)
        [RdUpTo 2; RdFail] true 4242 true true WrAll (Some 0) default_fatal 3 (3, 4)%N.

(** An environment whose file "in" is read one byte at a time at first. *)
Definition env_bytewise (content : list byte) : env :=
  mkEnv (fun p => if String.eqb p "in" then Some content else None)
        [RdUpTo 1; RdUpTo 1; RdUpTo 1] true 4242 true true WrAll (Some 0)
        default_fatal 3 (3, 4)%N.

(** The oracle of [env_ok] as the parent sees it, with a child whose [dup2]
    fails. *)
Definition env_dup2_fails (content : list byte) : env :=
  mkEnv (fun p => if String.eqb p "in" then Some content else None)
        [] true 4242 false true WrAll (Some 0) default_fatal 3 (3, 4)%N.

(** A file of [n] bytes, all of them the letter A. *)
Definition file_of_As (n : N) : list byte := repeat x41 (N.to_nat n).

(** How many events of a trace satisfy [p]. *)
Definition occurrences (p : event -> bool) (tr : list event) : nat :=
  length (filter p tr).

Definition is_pipe (ev : event) : bool :=
  match ev with EvPipe _ => true | _ => false end.

Definition is_fork (ev : event) : bool :=
  match ev with EvFork _ => true | _ => false end.

(** * Lemmas and theorems *)

(** ** The array *)

Lemma holds_nil b : 0 <= buf_size b -> holds b [].
Proof.
  intros Hb. split; [simpl; lia|].
  intros [|i] x H; discriminate H.
Qed.

Lemma buf_store_size b i v b' : buf_store b i v = Some b' -> buf_size b' = buf_size b.
Proof.
  unfold buf_store. destruct (in_bounds b i); [|discriminate].
  intros H; injection H as <-. reflexivity.
Qed.

Lemma buf_store_in_bounds b i v :
  0 <= i < buf_size b -> exists b', buf_store b i v = Some b'.
Proof.
  intros Hi. unfold buf_store, in_bounds.
  replace (0 <=? i) with true by (symmetry; apply Z.leb_le; lia).
  replace (i <? buf_size b) with true by (symmetry; apply Z.ltb_lt; lia).
  simpl. eexists. reflexivity.
Qed.

Lemma buf_store_cell b i v b' j :
  buf_store b i v = Some b' ->
  buf_cell b' j = if j =? i then Some v else buf_cell b j.
Proof.
  unfold buf_store. destruct (in_bounds b i); [|discriminate].
  intros H; injection H as <-. reflexivity.
Qed.

Lemma holds_snoc b data v b' :
  holds b data ->
  buf_store b (Z.of_nat (length data)) v = Some b' ->
  holds b' (data ++ [v]).
Proof.
  intros [Hlen Hcells] Hst.
  assert (Hsize := buf_store_size _ _ _ _ Hst).
  split.
  - rewrite length_app. simpl. unfold buf_store, in_bounds in Hst.
    destruct (Z.ltb_spec (Z.of_nat (length data)) (buf_size b)) as [Hlt|Hge].
    + lia.
    + rewrite andb_false_r in Hst. discriminate.
  - intros i x Hnth. rewrite (buf_store_cell _ _ _ _ _ Hst).
    destruct (Z.eqb_spec (Z.of_nat i) (Z.of_nat (length data))) as [Heq|Hne].
    + apply Nat2Z.inj in Heq. subst i.
      rewrite nth_error_app2, Nat.sub_diag in Hnth by lia. exact Hnth.
    + assert (Hi : (i < length (data ++ [v]))%nat)
        by (apply nth_error_Some; congruence).
      rewrite length_app in Hi. simpl in Hi.
      rewrite nth_error_app1 in Hnth by lia. auto.
Qed.

(** Storing a chunk right after the data held extends the data held, and
    succeeds exactly when the chunk fits in the array. *)
Lemma holds_store_bytes chunk : forall b data,
  holds b data ->
  Z.of_nat (length data) + Z.of_nat (length chunk) <= buf_size b ->
  exists b', buf_store_bytes b (Z.of_nat (length data)) chunk = Some b' /\
             holds b' (data ++ chunk) /\ buf_size b' = buf_size b.
Proof.
  induction chunk as [|x chunk IH]; intros b data Hh Hfit.
  - exists b. rewrite app_nil_r. auto.
  - simpl in Hfit. simpl buf_store_bytes.
    destruct (buf_store_in_bounds b (Z.of_nat (length data)) x) as [b1 Hb1]; [lia|].
    rewrite Hb1.
    assert (Hh1 := holds_snoc _ _ _ _ Hh Hb1).
    assert (Hs1 := buf_store_size _ _ _ _ Hb1).
    destruct (IH b1 (data ++ [x]) Hh1) as (b' & Hst & Hh' & Hs').
    + rewrite length_app. simpl. lia.
    + exists b'. rewrite length_app in Hst. simpl in Hst.
      rewrite Nat2Z.inj_add in Hst. simpl in Hst.
      rewrite <- app_assoc in Hh'. simpl in Hh'.
      split; [exact Hst|]. split; [exact Hh'|]. congruence.
Qed.

Lemma holds_get b data i x :
  holds b data -> nth_error data i = Some x -> buf_get b (Z.of_nat i) = Some x.
Proof.
  intros [Hlen Hcells] Hnth. unfold buf_get, in_bounds.
  assert (Hi : (i < length data)%nat) by (apply nth_error_Some; congruence).
  replace (0 <=? Z.of_nat i) with true by (symmetry; apply Z.leb_le; lia).
  replace (Z.of_nat i <? buf_size b) with true by (symmetry; apply Z.ltb_lt; lia).
  simpl. auto.
Qed.

Lemma holds_load_from b : forall back front,
  holds b (front ++ back) ->
  buf_load b (Z.of_nat (length front)) (length back) = Some back.
Proof.
  induction back as [|x back IH]; intros front Hh; [reflexivity|].
  simpl buf_load.
  rewrite (holds_get b (front ++ x :: back) (length front) x Hh)
    by (rewrite nth_error_app2, Nat.sub_diag by lia; reflexivity).
  specialize (IH (front ++ [x])).
  rewrite <- app_assoc, length_app in IH. simpl in IH.
  rewrite Nat2Z.inj_add in IH. simpl in IH.
  rewrite (IH Hh). reflexivity.
Qed.

Lemma holds_load b data :
  holds b data -> buf_load b 0 (length data) = Some data.
Proof. intros Hh. exact (holds_load_from b data [] Hh). Qed.

Lemma holds_prefix b front back : holds b (front ++ back) -> holds b front.
Proof.
  intros [Hlen Hcells]. rewrite length_app in Hlen. split; [lia|].
  intros i x Hnth. apply Hcells.
  rewrite nth_error_app1; [exact Hnth|].
  apply nth_error_Some. congruence.
Qed.

Lemma c_string_terminated : forall data rest, c_string (data ++ x00 :: rest) = c_string data.
Proof.
  induction data as [|x data IH]; intros rest; simpl.
  - reflexivity.
  - destruct (Byte.eqb x x00); [reflexivity|]. rewrite IH. reflexivity.
Qed.

Lemma holds_cstring_from b : forall back front fuel,
  holds b (front ++ back ++ [x00]) ->
  (length back < fuel)%nat ->
  buf_cstring b (Z.of_nat (length front)) fuel = Some (c_string back).
Proof.
  induction back as [|x back IH]; intros front fuel Hh Hfuel.
  - destruct fuel as [|fuel]; [lia|]. simpl.
    rewrite (holds_get b _ (length front) x00 Hh)
      by (rewrite nth_error_app2, Nat.sub_diag by lia; reflexivity).
    reflexivity.
  - destruct fuel as [|fuel]; [simpl in Hfuel; lia|]. simpl in Hfuel.
    simpl buf_cstring. simpl c_string.
    rewrite (holds_get b _ (length front) x Hh)
      by (rewrite nth_error_app2, Nat.sub_diag by lia; reflexivity).
    destruct (Byte.eqb x x00); [reflexivity|].
    specialize (IH (front ++ [x]) fuel).
    rewrite <- app_assoc, length_app in IH. simpl in IH.
    rewrite Nat2Z.inj_add in IH. simpl in IH.
    rewrite IH by (auto; lia). reflexivity.
Qed.

(** Line 63 and what the two later uses of the array see: once the zero byte
    is stored after the data, [write] sends the data and [execlp] passes the
    data up to its first zero byte. *)
Lemma terminator_stored b data :
  holds b data ->
  Z.of_nat (length data) < buf_size b ->
  exists b', buf_store b (Z.of_nat (length data)) x00 = Some b' /\
             buf_size b' = buf_size b /\
             buf_load b' 0 (length data) = Some data /\
             buf_cstring b' 0 (Z.to_nat (buf_size b')) = Some (c_string data).
Proof.
  intros Hh Hlt.
  destruct (buf_store_in_bounds b (Z.of_nat (length data)) x00) as [b' Hb']; [lia|].
  assert (Hh' := holds_snoc _ _ _ _ Hh Hb').
  assert (Hs := buf_store_size _ _ _ _ Hb').
  exists b'. split; [exact Hb'|]. split; [exact Hs|]. split.
  - apply holds_load. exact (holds_prefix _ _ _ Hh').
  - apply (holds_cstring_from b' data [] _ Hh'). lia.
Qed.

(** ** C integer facts *)

Lemma size_t_small x : 0 <= x < SIZE_MODULUS -> size_t x = x.
Proof. intros H. unfold size_t. apply Z.mod_small. exact H. Qed.

Lemma size_t_minus_one : size_t (-1) = SIZE_MODULUS - 1.
Proof. reflexivity. Qed.

Lemma MAX_INPUT_SIZE_fits : 0 < MAX_INPUT_SIZE - 1 < SIZE_MODULUS.
Proof. unfold MAX_INPUT_SIZE, SIZE_MODULUS. simpl. lia. Qed.

Lemma initial_buffer_size : buf_size (input_buffer initial_state) = MAX_INPUT_SIZE.
Proof. reflexivity. Qed.

(** ** The read loop *)

Lemma firstn_add {A} (l : list A) : forall a b,
  firstn (a + b) l = firstn a l ++ firstn b (skipn a l).
Proof.
  induction l as [|x l IH]; intros a b.
  - rewrite !firstn_nil, skipn_nil, firstn_nil. reflexivity.
  - destruct a as [|a]; simpl; [reflexivity|]. rewrite IH. reflexivity.
Qed.

Lemma sys_read_run s data count :
  holds (input_buffer s) data ->
  0 <= count ->
  Z.of_nat (length data) + count <= buf_size (input_buffer s) ->
  let r := read_amount (hd_error (plan_rest s)) count (file_rest s) in
  -1 <= r <= count /\ r <= Z.of_nat (length (file_rest s)) /\
  (Forall no_fail (plan_rest s) ->
   0 <= r /\ (r = 0 -> count = 0 \/ file_rest s = [])) /\
  exists b',
    sys_read (Z.of_nat (length data)) count s =
      (Next r,
       mkState (skipn (Z.to_nat r) (file_rest s)) (tl (plan_rest s)) b'
               (stdin_is_pipe s)
               (trace s ++ [EvRead (Z.of_nat (length data)) count r])) /\
    holds b' (data ++ firstn (Z.to_nat r) (file_rest s)) /\
    buf_size b' = buf_size (input_buffer s).
Proof.
  intros Hh Hc Hfit r.
  assert (Hempty : Z.of_nat (length (file_rest s)) = 0 -> file_rest s = [])
    by (destruct (file_rest s); simpl; [reflexivity|lia]).
  assert (Hr : -1 <= r <= count /\ r <= Z.of_nat (length (file_rest s)) /\
               (Forall no_fail (plan_rest s) ->
                0 <= r /\ (r = 0 -> count = 0 \/ file_rest s = []))).
  { subst r. destruct (plan_rest s) as [|[|k] plan]; simpl.
    - split; [lia|]. split; [lia|]. intros _. split; [lia|].
      intros H0. destruct (Z.eq_dec count 0); [auto|right; apply Hempty; lia].
    - split; [lia|]. split; [lia|]. intros Hnf. inversion Hnf as [|? ? Hx _].
      exfalso. apply Hx. reflexivity.
    - split; [lia|]. split; [lia|]. intros _. split; [lia|].
      intros H0. destruct (Z.eq_dec count 0); [auto|right; apply Hempty; lia]. }
  destruct Hr as (Hr1 & Hr2 & Hr3).
  split; [exact Hr1|]. split; [exact Hr2|]. split; [exact Hr3|].
  unfold sys_read. fold r.
  destruct (Z.ltb_spec r 0) as [Hneg|Hpos].
  - exists (input_buffer s). replace r with (-1) by lia. simpl.
    rewrite app_nil_r. auto.
  - assert (Hlen : length (firstn (Z.to_nat r) (file_rest s)) = Z.to_nat r)
      by (apply firstn_length_le; lia).
    destruct (holds_store_bytes (firstn (Z.to_nat r) (file_rest s))
                (input_buffer s) data Hh) as (b' & Hst & Hh' & Hs').
    + rewrite Hlen. lia.
    + exists b'. rewrite Hst. auto.
Qed.

(** A [read] that delivers bytes shortens what is left of the file. *)
Lemma sys_read_consumes off count s r s1 :
  sys_read off count s = (Next r, s1) ->
  0 < r ->
  (length (file_rest s1) < length (file_rest s))%nat.
Proof.
  unfold sys_read.
  set (k := read_amount (hd_error (plan_rest s)) count (file_rest s)).
  assert (Hk : k <= Z.of_nat (length (file_rest s))).
  { unfold k, read_amount. destruct (hd_error (plan_rest s)) as [[|p]|]; lia. }
  destruct (k <? 0) eqn:Hneg.
  - intros H. injection H as <- _. apply Z.ltb_lt in Hneg. lia.
  - destruct (buf_store_bytes _ _ _); [|discriminate].
    intros H Hr. injection H as <- <-. simpl. rewrite length_skipn. lia.
Qed.

(** The loop does not depend on the fuel once there is more of it than the
    file has bytes left: it never runs out. *)
Lemma read_loop_fuel_irrelevant : forall fuel1 fuel2 max_size n s,
  (length (file_rest s) < fuel1)%nat ->
  (length (file_rest s) < fuel2)%nat ->
  read_loop fuel1 max_size n s = read_loop fuel2 max_size n s.
Proof.
  induction fuel1 as [|fuel1 IH]; intros fuel2 max_size n s H1 H2; [lia|].
  destruct fuel2 as [|fuel2]; [lia|].
  simpl. unfold bind.
  destruct (sys_read n (size_t (max_size - n)) s) as [[r|p] s1] eqn:Hread;
    [|reflexivity].
  destruct (Z.ltb_spec 0 r) as [Hpos|Hle]; [|reflexivity].
  destruct (max_size <=? size_t (n + size_t r)); [reflexivity|].
  pose proof (sys_read_consumes _ _ _ _ _ Hread Hpos).
  apply IH; lia.
Qed.

Lemma read_loop_spec : forall fuel max_size n data s,
  (length (file_rest s) < fuel)%nat ->
  max_size < SIZE_MODULUS ->
  max_size <= buf_size (input_buffer s) ->
  n = Z.of_nat (length data) ->
  n <= max_size ->
  holds (input_buffer s) data ->
  loop_post max_size n data s (read_loop fuel max_size n s).
Proof.
  induction fuel as [|fuel IH]; intros max_size n data s Hfuel Hmax Hbuf Hn Hle Hh;
    [lia|].
  simpl read_loop. unfold bind at 1.
  rewrite (size_t_small (max_size - n)) by lia.
  destruct (sys_read_run s data (max_size - n) Hh) as (Hr1 & Hr2 & Hr3 & b' & Hrun & Hh' & Hs');
    [lia|lia|].
  set (r := read_amount (hd_error (plan_rest s)) (max_size - n) (file_rest s)) in *.
  subst n. rewrite Hrun.
  set (n := Z.of_nat (length data)) in *.
  set (chunk1 := firstn (Z.to_nat r) (file_rest s)) in *.
  destruct (Z.ltb_spec 0 r) as [Hpos|Hnonpos].
  - (* the read delivered r > 0 bytes *)
    assert (Hlen1 : Z.of_nat (length chunk1) = r).
    { unfold chunk1. rewrite firstn_length_le by lia. lia. }
    rewrite (size_t_small r) by lia.
    rewrite (size_t_small (n + r)) by lia.
    destruct (Z.leb_spec max_size (n + r)) as [Hfull|Hmore].
    + (* the capacity is reached: warn and leave the loop *)
      unfold bind, fprintf_stderr, log, ret. simpl.
      eexists (n + r), chunk1, _, _. split; [reflexivity|]. simpl.
      split; [lia|]. split; [lia|].
      split; [symmetry; apply firstn_skipn|].
      split; [exact Hh'|]. split; [exact Hs'|]. split; [reflexivity|].
      split; [rewrite <- app_assoc; reflexivity|].
      split; [repeat constructor; simpl; lia|].
      split; [split; [intros _; lia|intros _; simpl; auto]|].
      split.
      * intros _. exists [EvRead n (max_size - n) r]. split; [reflexivity|].
        repeat constructor. exact Hpos.
      * intros _. unfold chunk1. f_equal. lia.
    + (* go round again *)
      match goal with
      | |- loop_post _ _ _ _ (read_loop _ _ _ ?s1) => set (s1' := s1)
      end.
      destruct (IH max_size (n + r) (data ++ chunk1) s1') as
        (n' & chunk2 & evs2 & s' & Hout & Hn' & Hn'max & Hfile & Hholds & Hsize &
         Hstdin & Htrace & Hevs & Hwarn & Hlast & Hall).
      * subst s1'. simpl. rewrite length_skipn. lia.
      * exact Hmax.
      * subst s1'. simpl. lia.
      * rewrite length_app. lia.
      * lia.
      * exact Hh'.
      * exists n', (chunk1 ++ chunk2), (EvRead n (max_size - n) r :: evs2), s'.
        subst s1'. simpl in *.
        split; [exact Hout|].
        split; [rewrite length_app; lia|]. split; [exact Hn'max|].
        split; [rewrite <- app_assoc, <- Hfile; symmetry; apply firstn_skipn|].
        split; [rewrite app_assoc; exact Hholds|].
        split; [congruence|]. split; [exact Hstdin|].
        split; [rewrite Htrace, <- app_assoc; reflexivity|].
        split; [constructor; [simpl; lia|exact Hevs]|].
        split.
        { split.
          - intros [Hx|Hin]; [discriminate Hx|]. apply Hwarn in Hin. lia.
          - intros Hx. right. apply Hwarn. lia. }
        split.
        { intros [Hx|Hin]; [discriminate Hx|].
          destruct (Hlast Hin) as (reads & -> & Hreads).
          exists (EvRead n (max_size - n) r :: reads). split; [reflexivity|].
          constructor; [exact Hpos|exact Hreads]. }
        intros Hnf.
        assert (Hnf' : Forall no_fail (tl (plan_rest s)))
          by (destruct (plan_rest s); [constructor|inversion Hnf; assumption]).
        rewrite (Hall Hnf'). unfold chunk1.
        replace (Z.to_nat (max_size - n))
          with (Z.to_nat r + Z.to_nat (max_size - (n + r)))%nat by lia.
        symmetry. apply firstn_add.
  - (* end of the file, or an error: leave the loop *)
    unfold ret.
    eexists n, [], [EvRead n (max_size - n) r], _. split; [reflexivity|]. simpl.
    split; [lia|]. split; [lia|].
    assert (Hz : Z.to_nat r = 0%nat) by lia.
    split; [rewrite Hz; reflexivity|].
    split; [unfold chunk1 in Hh'; rewrite Hz in Hh'; exact Hh'|].
    split; [exact Hs'|]. split; [reflexivity|]. split; [reflexivity|].
    split; [repeat constructor; simpl; lia|].
    split; [split; [intros [Hx|[]]; discriminate Hx|lia]|].
    split; [intros [Hx|[]]; discriminate Hx|].
    intros Hnf. destruct (Hr3 Hnf) as [Hr0 Hcase].
    destruct Hcase as [Hc0|Hnil]; [lia| |].
    + replace (max_size - n) with 0 by lia. reflexivity.
    + rewrite Hnil. rewrite firstn_nil. reflexivity.
Qed.

(** ** read_file *)

Lemma read_file_spec e filename max_size s :
  0 <= max_size < SIZE_MODULUS ->
  max_size <= buf_size (input_buffer s) ->
  load_post e filename max_size s (read_file e filename max_size s).
Proof.
  intros Hmax Hbuf. unfold read_file, bind at 1, sys_open.
  destruct (fs e filename) as [content|] eqn:Hfs.
  - replace (Z.of_N (file_fd e) =? -1) with false
      by (symmetry; apply Z.eqb_neq; lia).
    unfold bind at 1.
    match goal with
    | |- context [read_loop _ _ _ ?s1] => set (s1' := s1)
    end.
    destruct (read_loop_spec (S (length (file_rest s1'))) max_size 0 [] s1')
      as (n & chunk & evs & s' & Hout & Hn & Hnmax & Hfile & Hholds & Hsize &
          Hstdin & Htrace & Hevs & Hwarn & Hlast & Hall);
      [lia|lia|exact Hbuf|reflexivity|lia|apply holds_nil; simpl; lia|].
    rewrite Hout. unfold bind, sys_close, log, ret. simpl.
    subst s1'. simpl in *.
    eexists n, chunk, (EvOpen filename true :: evs ++ [EvClose FileFd]), _.
    split; [reflexivity|]. simpl.
    split; [lia|]. split; [exact Hnmax|]. split; [exact Hholds|].
    split; [exact Hsize|].
    split; [intros Hs0; rewrite Hstdin, Hs0;
            destruct (Z.of_N (file_fd e) =? 0); reflexivity|].
    split; [rewrite Htrace, <- !app_assoc; reflexivity|].
    split.
    { constructor; [exact I|]. apply Forall_app. split.
      - eapply Forall_impl; [|exact Hevs]. intros [] Hx; simpl in *; tauto.
      - repeat constructor. }
    split.
    { rewrite <- Hwarn. split.
      - intros [Hx|Hin]; [discriminate Hx|]. apply in_app_or in Hin.
        destruct Hin as [Hin|[Hx|[]]]; [exact Hin|discriminate Hx].
      - intros Hin. right. apply in_or_app. left. exact Hin. }
    split.
    { intros [Hx|Hin]; [discriminate Hx|]. apply in_app_or in Hin.
      destruct Hin as [Hin|[Hx|[]]]; [|discriminate Hx].
      destruct (Hlast Hin) as (reads & -> & Hreads).
      exists reads. rewrite <- app_assoc. split; [reflexivity|exact Hreads]. }
    rewrite Hfs. split; [exists (file_rest s'); exact Hfile|].
    intros Hnf. rewrite (Hall Hnf). rewrite Z.sub_0_r. reflexivity.
  - simpl. unfold ret.
    eexists 0, [], [EvOpen filename false], _. split; [reflexivity|]. simpl.
    split; [reflexivity|]. split; [lia|]. split; [apply holds_nil; lia|].
    split; [reflexivity|]. split; [intros Hs0; exact Hs0|]. split; [reflexivity|].
    split; [repeat constructor|].
    split; [split; [intros [Hx|[]]; discriminate Hx|lia]|].
    split; [intros [Hx|[]]; discriminate Hx|].
    rewrite Hfs. auto.
Qed.

(** ** The straight-line part of main *)

Lemma main_unfold e argv :
  main e argv =
  ((if Z.of_nat (length argv) <? 2 then
      fprintf_stderr (msg_usage (program_name argv));;
      exit 1
    else ret tt);;
   bytes_read <- read_file e (nth 1 argv "") (MAX_INPUT_SIZE - 1);;
   (if bytes_read =? 0 then
      fprintf_stderr msg_no_input;;
      exit 1
    else ret tt);;
   after_load e bytes_read).
Proof. reflexivity. Qed.

Lemma translate_step e status s :
  exists s', translate e status s = (translate_result e status, s') /\
             trace s' = trace s ++ translate_events status.
Proof.
  unfold translate, translate_result, translate_events.
  destruct (WIFEXITED status).
  - destruct (negb (WEXITSTATUS status =? 0)).
    + run_step. destruct (sig_fatal e SIGSEGV); simpl;
        (eexists; split; [reflexivity|]); simpl; rewrite <- app_assoc; reflexivity.
    + run_step. eexists; split; [reflexivity|]. rewrite app_nil_r. reflexivity.
  - destruct (WIFSIGNALED status).
    + run_step. destruct (sig_fatal e (WTERMSIG status)); simpl;
        (eexists; split; [reflexivity|]); simpl; rewrite <- app_assoc; reflexivity.
    + run_step. eexists; split; [reflexivity|]. reflexivity.
Qed.

Lemma translate_result_end e status :
  translate_end e status =
  match translate_result e status with
  | Next _ => Exit 0
  | Halt p => p
  end.
Proof.
  unfold translate_end, translate_result.
  destruct (WIFEXITED status), (WIFSIGNALED status),
    (negb (WEXITSTATUS status =? 0)), (sig_fatal e SIGSEGV),
    (sig_fatal e (WTERMSIG status)); reflexivity.
Qed.

Lemma child_run e payload s :
  buf_cstring (input_buffer s) 0 (Z.to_nat (buf_size (input_buffer s)))
    = Some (c_string payload) ->
  ends_with (main_child e;; ret 0) s (child_end e payload) (child_events e payload).
Proof.
  intros Hstr.
  unfold ends_with, finish, main_child, child_end, child_events, sys_execlp,
    child_stdin_is_pipe, pipe_fd.
  run_step. unfold STDIN_FILENO. destruct (dup2_ok e); simpl.
  - rewrite Hstr.
    destruct (exec_ok e), (Z.of_N (fst (pipe_fds e)) =? 0); simpl;
      (eexists; split; [reflexivity|]); simpl; rewrite <- !app_assoc; reflexivity.
  - eexists; split; [reflexivity|]. simpl. rewrite <- !app_assoc. reflexivity.
Qed.

Lemma parent_run e payload pid s :
  pid <> -1 ->
  buf_load (input_buffer s) 0 (length payload) = Some payload ->
  ends_with (main_parent e (Z.of_nat (length payload)) pid;; ret 0) s
            (parent_end e payload) (parent_events e payload).
Proof.
  intros Hpid Hload. apply Z.eqb_neq in Hpid.
  unfold ends_with, finish, main_parent, parent_end, parent_events, sys_write,
    write_complete, written.
  run_step. rewrite Nat2Z.id, Hload.
  destruct (write_kills e); simpl.
  { eexists; split; [reflexivity|]. simpl. rewrite <- !app_assoc. reflexivity. }
  destruct (size_t (write_amount (write_plan e) (Z.of_nat (length payload)))
            =? Z.of_nat (length payload)); simpl.
  - destruct (wait_ret e) as [status|]; simpl.
    + rewrite Hpid.
      match goal with
      | |- context [translate e status ?s1] =>
          destruct (translate_step e status s1) as (s' & Hrun & Htrace)
      end.
      rewrite Hrun, translate_result_end.
      exists s'. split; [destruct (translate_result e status); reflexivity|].
      rewrite Htrace. simpl. rewrite <- !app_assoc. reflexivity.
    + eexists; split; [reflexivity|]. simpl. rewrite <- !app_assoc. reflexivity.
  - eexists; split; [reflexivity|]. simpl. rewrite <- !app_assoc. reflexivity.
Qed.

Lemma after_load_run e payload s :
  holds (input_buffer s) payload ->
  Z.of_nat (length payload) < buf_size (input_buffer s) ->
  ends_with (after_load e (Z.of_nat (length payload))) s
            (bridge_end e payload) (bridge_events e payload).
Proof.
  intros Hh Hlt.
  destruct (terminator_stored _ _ Hh Hlt) as (b' & Hst & Hsize & Hload & Hstr).
  unfold after_load, bridge_end, bridge_events.
  unfold ends_with, finish, bind at 1, store. rewrite Hst.
  unfold bind at 1, sys_pipe. run_step.
  destruct (pipe_ok e); simpl.
  - destruct (Z.eqb_spec (fork_ret e) (-1)) as [Hfail|Hfork]; simpl.
    + eexists; split; [reflexivity|]. simpl. rewrite <- !app_assoc. reflexivity.
    + match goal with
      | |- context [(if _ then _ else _) ?s1] => set (s1' := s1)
      end.
      destruct (Z.eqb_spec (fork_ret e) 0) as [Hchild|Hparent].
      * destruct (child_run e payload s1' Hstr) as (s' & Hrun & Htrace).
        unfold finish, bind in Hrun. exists s'. split; [exact Hrun|].
        rewrite Htrace. subst s1'. simpl. rewrite <- !app_assoc. reflexivity.
      * destruct (parent_run e payload (fork_ret e) s1' Hfork Hload)
          as (s' & Hrun & Htrace).
        unfold finish, bind in Hrun. exists s'. split; [exact Hrun|].
        rewrite Htrace. subst s1'. simpl. rewrite <- !app_assoc. reflexivity.
  - eexists; split; [reflexivity|]. simpl. rewrite <- !app_assoc. reflexivity.
Qed.

(** ** main as a whole *)

Lemma read_file_loaded e filename :
  exists payload evs, loaded e filename payload evs.
Proof.
  destruct (read_file_spec e filename (MAX_INPUT_SIZE - 1) initial_state)
    as (n & payload & evs & s' & Hout & Hn & Hnmax & Hholds & Hsize & Hstdin &
        Htrace & Hevs & Hwarn & Hlast & Hfile).
  - pose proof MAX_INPUT_SIZE_fits. lia.
  - rewrite initial_buffer_size. lia.
  - subst n. exists payload, evs. constructor; auto.
    + exists s'. auto.
    + rewrite Hwarn. pose proof MAX_INPUT_SIZE_fits. lia.
Qed.

Lemma run_usage e argv :
  (length argv < 2)%nat ->
  run_end e argv = Exit 1 /\
  run_trace e argv = [EvStderr (msg_usage (program_name argv))].
Proof.
  intros Hargc. unfold run_end, run_trace, run, finish, main.
  replace (Z.of_nat (length argv) <? 2) with true
    by (symmetry; apply Z.ltb_lt; lia).
  split; reflexivity.
Qed.

Lemma run_loaded e argv payload evs :
  (2 <= length argv)%nat ->
  loaded e (nth 1 argv "") payload evs ->
  run_end e argv = tail_end e payload /\
  run_trace e argv = evs ++ tail_events e payload.
Proof.
  intros Hargc Hld.
  destruct (ld_read_file _ _ _ _ Hld) as (s1 & Hrun & Htrace & Hholds).
  assert (Hsize : buf_size (input_buffer s1) = MAX_INPUT_SIZE).
  { destruct (read_file_spec e (nth 1 argv "") (MAX_INPUT_SIZE - 1) initial_state)
      as (n & p & ev & s' & Hout & _ & _ & _ & Hs & _);
      [pose proof MAX_INPUT_SIZE_fits; lia|rewrite initial_buffer_size; lia|].
    rewrite Hrun in Hout. injection Hout as _ <-. exact Hs. }
  assert (Hgoal : exists s', run e argv = (tail_end e payload, s') /\
                             trace s' = evs ++ tail_events e payload).
  { unfold run. rewrite main_unfold.
    unfold finish, bind at 1.
    replace (Z.of_nat (length argv) <? 2) with false
      by (symmetry; apply Z.ltb_ge; lia).
    unfold ret at 1. cbv iota beta. unfold bind at 1. rewrite Hrun.
    destruct payload as [|x payload].
    - simpl. eexists. split; [reflexivity|]. simpl. rewrite Htrace. reflexivity.
    - replace (Z.of_nat (length (x :: payload)) =? 0) with false
        by (symmetry; apply Z.eqb_neq; simpl; lia).
      unfold bind at 1, ret at 1. cbv iota beta.
      destruct (after_load_run e (x :: payload) s1 Hholds) as (s' & Hfin & Htr).
      + pose proof (ld_size _ _ _ _ Hld). lia.
      + exists s'. unfold finish in Hfin. split; [exact Hfin|].
        rewrite Htr, Htrace. reflexivity. }
  destruct Hgoal as (s' & Hfin & Htr).
  unfold run_end, run_trace. rewrite Hfin. simpl. auto.
Qed.

(** Every run of [main] with a file argument is the loader followed by the
    straight-line part. *)
Lemma run_spec e argv :
  (2 <= length argv)%nat ->
  exists payload evs,
    loaded e (nth 1 argv "") payload evs /\
    run_end e argv = tail_end e payload /\
    run_trace e argv = evs ++ tail_events e payload.
Proof.
  intros Hargc.
  destruct (read_file_loaded e (nth 1 argv "")) as (payload & evs & Hld).
  exists payload, evs. split; [exact Hld|].
  exact (run_loaded e argv payload evs Hargc Hld).
Qed.

(** ** Parent runs *)

Lemma loader_event_not_bridge max_size ev :
  loader_event max_size ev ->
  is_write ev = false /\ is_waitpid ev = false /\ is_spawn ev = false /\
  is_raise ev = false.
Proof. destruct ev; simpl; intros H; try contradiction; auto. Qed.

Lemma translate_events_shape status ev :
  In ev (translate_events status) ->
  is_write ev = false /\ is_waitpid ev = false /\ is_spawn ev = false.
Proof.
  unfold translate_events.
  destruct (WIFEXITED status), (WIFSIGNALED status),
    (negb (WEXITSTATUS status =? 0)); intros H; in_cases H; subst; auto.
Qed.

(** Only the parent's branch writes to the pipe or waits. *)
Lemma parent_run_inv e argv ev :
  In ev (run_trace e argv) ->
  is_write ev || is_waitpid ev = true ->
  exists payload evs, parent_reached e argv payload evs.
Proof.
  intros Hin Hev.
  destruct (Nat.lt_ge_cases (length argv) 2) as [Hargc|Hargc].
  - destruct (run_usage e argv Hargc) as [_ Htr]. rewrite Htr in Hin.
    in_cases Hin; subst; discriminate Hev.
  - destruct (run_spec e argv Hargc) as (payload & evs & Hld & Hend & Htr).
    rewrite Htr in Hin. apply in_app_or in Hin. destruct Hin as [Hin|Hin].
    + pose proof (ld_events _ _ _ _ Hld) as Hevs.
      rewrite Forall_forall in Hevs.
      destruct (loader_event_not_bridge _ _ (Hevs ev Hin)) as (H1 & H2 & _).
      rewrite H1, H2 in Hev. discriminate Hev.
    + destruct payload as [|x payload];
        [in_cases Hin; subst; discriminate Hev|].
      unfold tail_events, bridge_events in Hin, Htr.
      unfold tail_end, bridge_end in Hend.
      destruct (pipe_ok e) eqn:Hpipe;
        [|in_cases Hin; subst; discriminate Hev].
      destruct (Z.eqb_spec (fork_ret e) (-1)) as [Hfail|Hfork];
        [in_cases Hin; subst; discriminate Hev|].
      destruct (Z.eqb_spec (fork_ret e) 0) as [Hchild|Hparent].
      * exfalso. unfold child_events in Hin.
        destruct (dup2_ok e), (exec_ok e); in_cases Hin; subst; discriminate Hev.
      * exists (x :: payload), evs. constructor; auto. discriminate.
Qed.

Lemma written_range e payload :
  -1 <= written e payload <= Z.of_nat (length payload).
Proof.
  unfold written, write_amount. destruct (write_plan e) as [|k| |]; lia.
Qed.

(** The comparison of line 92 (a [ssize_t] against a [size_t]) holds exactly
    when [write] returned the whole count. *)
Lemma write_complete_iff e payload :
  Z.of_nat (length payload) <= MAX_INPUT_SIZE - 1 ->
  write_complete e payload = true <-> written e payload = Z.of_nat (length payload).
Proof.
  intros Hlen. unfold write_complete.
  pose proof (written_range e payload) as Hw.
  pose proof MAX_INPUT_SIZE_fits as Hmax.
  rewrite Z.eqb_eq.
  destruct (Z.eq_dec (written e payload) (-1)) as [Hneg|Hnn].
  - rewrite Hneg, size_t_minus_one.
    assert (SIZE_MODULUS - 1 > MAX_INPUT_SIZE - 1)
      by (unfold SIZE_MODULUS, MAX_INPUT_SIZE; simpl; lia).
    lia.
  - rewrite size_t_small by lia. tauto.
Qed.

(** A run that waits has the shape: loader, pipe, fork, the complete write,
    close of the write end, waitpid, and then the translation. *)
Lemma wait_inv e argv w :
  In (EvWaitpid w) (run_trace e argv) ->
  exists payload evs,
    parent_reached e argv payload evs /\
    written e payload = Z.of_nat (length payload) /\
    wait_ret e = w /\
    run_trace e argv =
      (evs ++ [EvPipe true; EvFork (fork_ret e); EvClose PipeRd])
      ++ [EvWrite payload (Z.of_nat (length payload)); EvClose PipeWr; EvWaitpid w]
      ++ match w with
         | None => [EvStderr msg_wait]
         | Some status => translate_events status
         end /\
    run_end e argv =
      match w with
      | None => Exit 1
      | Some status => translate_end e status
      end.
Proof.
  intros Hin.
  destruct (parent_run_inv e argv _ Hin eq_refl) as (payload & evs & Hpr).
  exists payload, evs. split; [exact Hpr|].
  pose proof (pr_trace _ _ _ _ Hpr) as Htr.
  pose proof (pr_end _ _ _ _ Hpr) as Hend.
  pose proof (pr_loaded _ _ _ _ Hpr) as Hld.
  rewrite Htr in Hin. apply in_app_or in Hin. destruct Hin as [Hin|Hin].
  { pose proof (ld_events _ _ _ _ Hld) as Hevs. rewrite Forall_forall in Hevs.
    destruct (loader_event_not_bridge _ _ (Hevs _ Hin)) as (_ & H2 & _).
    discriminate H2. }
  unfold parent_events in Hin, Htr. unfold parent_end in Hend.
  destruct (write_kills e); [in_cases Hin; discriminate Hin|].
  destruct (write_complete e payload) eqn:Hwc;
    [|in_cases Hin; discriminate Hin].
  assert (Hw : written e payload = Z.of_nat (length payload))
    by (apply write_complete_iff; [exact (ld_size _ _ _ _ Hld)|exact Hwc]).
  assert (Hwait : wait_ret e = w).
  { simpl in Hin. destruct Hin as [Hx|[Hx|[Hx|[Hx|[Hx|[Hx|Hx]]]]]];
      try discriminate Hx.
    - injection Hx as Hx. exact Hx.
    - destruct (wait_ret e) as [status|].
      + destruct (translate_events_shape _ _ Hx) as (_ & H2 & _). discriminate H2.
      + in_cases Hx; discriminate Hx. }
  split; [exact Hw|]. split; [exact Hwait|].
  rewrite Htr, Hend, Hw, Hwait. rewrite <- !app_assoc. simpl. split; reflexivity.
Qed.

(** ** The translation step *)

Lemma translation_cases e status :
  match classify status with
  | ExitedWithCode code =>
      if code =? 0 then
        translate_events status = [] /\ translate_end e status = Exit 0
      else
        translate_events status = [EvStderr msg_vulnerability; EvRaise SIGSEGV] /\
        translate_end e status =
          (if sig_fatal e SIGSEGV then Signaled SIGSEGV else Exit 0)
  | TerminatedBySignal sig =>
      translate_events status = [EvStderr (msg_signal sig); EvRaise sig] /\
      translate_end e status = (if sig_fatal e sig then Signaled sig else Exit 0)
  | Abnormal =>
      translate_events status = [EvStderr msg_abnormal] /\
      translate_end e status = Exit 1
  end.
Proof.
  unfold classify, translate_events, translate_end.
  destruct (WIFEXITED status).
  - destruct (WEXITSTATUS status =? 0); simpl; auto.
  - destruct (WIFSIGNALED status); auto.
Qed.

Lemma loaded_no_raise e filename payload evs :
  loaded e filename payload evs -> Forall (fun ev => is_raise ev = false) evs.
Proof.
  intros Hld. eapply Forall_impl; [|exact (ld_events _ _ _ _ Hld)].
  intros ev Hev. apply (loader_event_not_bridge _ _ Hev).
Qed.

(** C1, as the code has it.  For every wait status the run reaches the
    translation with: a child that exited with code 0 makes the program exit
    with code 0, with nothing printed or raised after the wait; a child that
    exited with a nonzero code makes the program print the vulnerability
    message and raise SIGSEGV against itself, which ends it by that signal
    whenever the delivery of SIGSEGV is fatal to the process; a child that
    neither exited nor was signaled makes the program print the abnormal
    termination message and exit with code 1, having raised no signal. *)
Theorem translate_exit_outcomes e argv status :
  In (EvWaitpid (Some status)) (run_trace e argv) ->
  (classify status = ExitedWithCode 0 ->
   run_end e argv = Exit 0 /\
   (exists pre, run_trace e argv = pre ++ [EvWaitpid (Some status)]) /\
   Forall (fun ev => is_raise ev = false) (run_trace e argv)) /\
  (forall code, classify status = ExitedWithCode code -> code <> 0 ->
   (exists pre, run_trace e argv =
                pre ++ [EvWaitpid (Some status); EvStderr msg_vulnerability;
                        EvRaise SIGSEGV]) /\
   (sig_fatal e SIGSEGV = true -> run_end e argv = Signaled SIGSEGV)) /\
  (classify status = Abnormal ->
   run_end e argv = Exit 1 /\
   (exists pre, run_trace e argv =
                pre ++ [EvWaitpid (Some status); EvStderr msg_abnormal]) /\
   Forall (fun ev => is_raise ev = false) (run_trace e argv)).
Proof.
  intros Hin.
  destruct (wait_inv e argv _ Hin) as (payload & evs & Hpr & Hw & Hwait & Htr & Hend).
  pose proof (loaded_no_raise _ _ _ _ (pr_loaded _ _ _ _ Hpr)) as Hquiet.
  pose proof (translation_cases e status) as Hcases.
  set (front := evs ++ [EvPipe true; EvFork (fork_ret e); EvClose PipeRd]) in *.
  set (wr := EvWrite payload (Z.of_nat (length payload))) in *.
  assert (Hfront : Forall (fun ev => is_raise ev = false) (front ++ [wr; EvClose PipeWr]))
    by (unfold front; rewrite !Forall_app; repeat split; auto; repeat constructor).
  split; [|split].
  - intros Hc. rewrite Hc in Hcases. simpl in Hcases. destruct Hcases as [Hev Hen].
    rewrite Htr, Hend, Hev, Hen. split; [reflexivity|]. split.
    + exists (front ++ [wr; EvClose PipeWr]). rewrite <- !app_assoc. reflexivity.
    + rewrite !Forall_app in *. repeat split; try tauto; repeat constructor.
  - intros code Hc Hcode. rewrite Hc in Hcases.
    apply Z.eqb_neq in Hcode. rewrite Hcode in Hcases. destruct Hcases as [Hev Hen].
    rewrite Htr, Hend, Hev, Hen. split.
    + exists (front ++ [wr; EvClose PipeWr]). rewrite <- !app_assoc. reflexivity.
    + intros Hfatal. rewrite Hfatal. reflexivity.
  - intros Hc. rewrite Hc in Hcases. destruct Hcases as [Hev Hen].
    rewrite Htr, Hend, Hev, Hen. split; [reflexivity|]. split.
    + exists (front ++ [wr; EvClose PipeWr]). rewrite <- !app_assoc. reflexivity.
    + rewrite !Forall_app in *. repeat split; try tauto; repeat constructor.
Qed.

Lemma translate_exit_outcomes_witness :
  run_end (env_ok (bytes "abc") 256) args_in = Signaled SIGSEGV.
Proof.
  apply (translate_exit_outcomes (env_ok (bytes "abc") 256) args_in 256
           ltac:(find_in) : _ /\ (forall code, _) /\ _) with (code := 1).
  - reflexivity.
  - discriminate.
  - reflexivity.
Defined.

(** C1 as stated fails: with SIGSEGV ignored by the wrapper, a child that
    exits with code 1 makes the program raise SIGSEGV, survive it, and exit
    with code 0. *)
Lemma ignored_SIGSEGV_exits_zero :
  let e := env_ignoring (fun sig => sig =? SIGSEGV) (bytes "abc") 256 in
  classify 256 = ExitedWithCode 1 /\
  In (EvWaitpid (Some 256)) (run_trace e args_in) /\
  In (EvRaise SIGSEGV) (run_trace e args_in) /\
  run_end e args_in = Exit 0.
Proof.
  split; [reflexivity|]. split; [find_in|]. split; [find_in|]. reflexivity.
Qed.

(** C2, as the code has it.  When the child was terminated by signal [sig],
    the parent prints the signal number and raises [sig] against itself as
    its last action; it terminates with that same signal whenever that
    raise ends the process ([sig_fatal]), which [main] does nothing to
    ensure: it depends on the dispositions and the mask the parent was
    started with and on the C library accepting the number. *)
Theorem signal_redelivered e argv status sig :
  In (EvWaitpid (Some status)) (run_trace e argv) ->
  classify status = TerminatedBySignal sig ->
  (exists pre, run_trace e argv =
               pre ++ [EvWaitpid (Some status); EvStderr (msg_signal sig);
                       EvRaise sig]) /\
  (sig_fatal e sig = true -> run_end e argv = Signaled sig).
Proof.
  intros Hin Hc.
  destruct (wait_inv e argv _ Hin) as (payload & evs & Hpr & Hw & Hwait & Htr & Hend).
  pose proof (translation_cases e status) as Hcases.
  rewrite Hc in Hcases. destruct Hcases as [Hev Hen].
  rewrite Htr, Hend, Hev, Hen. split.
  - exists ((evs ++ [EvPipe true; EvFork (fork_ret e); EvClose PipeRd])
            ++ [EvWrite payload (Z.of_nat (length payload)); EvClose PipeWr]).
    rewrite <- !app_assoc. reflexivity.
  - intros Hfatal. rewrite Hfatal. reflexivity.
Qed.

Lemma signal_redelivered_witness :
  run_end (env_ok (bytes "abc") 9) args_in = Signaled 9.
Proof.
  apply (signal_redelivered (env_ok (bytes "abc") 9) args_in 9 9).
  - find_in.
  - reflexivity.
  - reflexivity.
Defined.

(** C2 as stated fails: a wrapper started with SIGHUP (1) ignored, whose
    child was killed by SIGHUP, raises SIGHUP, survives it and exits with
    code 0. *)
Lemma ignored_signal_not_propagated :
  let e := env_ignoring (fun sig => sig =? 1) (bytes "abc") 1 in
  classify 1 = TerminatedBySignal 1 /\
  In (EvWaitpid (Some 1)) (run_trace e args_in) /\
  In (EvRaise 1) (run_trace e args_in) /\
  run_end e args_in = Exit 0.
Proof.
  split; [reflexivity|]. split; [find_in|]. split; [find_in|]. reflexivity.
Qed.

(** C8.  After [raise], control goes on to a [return 0] (line 108 after the
    SIGSEGV of line 106, line 118 after the signal of line 112): when the
    delivery of the raised signal does not end the parent, the raise is the
    last thing the program does and it exits with code 0. *)
Theorem raise_falls_through_to_return_0 e argv status sig :
  In (EvWaitpid (Some status)) (run_trace e argv) ->
  raised_signal status = Some sig ->
  sig_fatal e sig = false ->
  (exists pre, run_trace e argv = pre ++ [EvRaise sig]) /\
  run_end e argv = Exit 0.
Proof.
  intros Hin Hsig Hfatal.
  destruct (wait_inv e argv _ Hin) as (payload & evs & Hpr & Hw & Hwait & Htr & Hend).
  pose proof (translation_cases e status) as Hcases.
  unfold raised_signal in Hsig.
  set (front := (evs ++ [EvPipe true; EvFork (fork_ret e); EvClose PipeRd])
                ++ [EvWrite payload (Z.of_nat (length payload)); EvClose PipeWr;
                    EvWaitpid (Some status)]) in *.
  destruct (classify status) as [code|sig'|]; [| |discriminate Hsig].
  - destruct (code =? 0); [discriminate Hsig|]. injection Hsig as <-.
    destruct Hcases as [Hev Hen]. rewrite Htr, Hend, Hev, Hen, Hfatal.
    split; [|reflexivity].
    exists (front ++ [EvStderr msg_vulnerability]).
    unfold front. rewrite <- !app_assoc. reflexivity.
  - injection Hsig as ->.
    destruct Hcases as [Hev Hen]. rewrite Htr, Hend, Hev, Hen, Hfatal.
    split; [|reflexivity].
    exists (front ++ [EvStderr (msg_signal sig)]).
    unfold front. rewrite <- !app_assoc. reflexivity.
Qed.

Lemma raise_falls_through_witness :
  run_end (env_ignoring (fun _ => true) (bytes "abc") 15) args_in = Exit 0.
Proof.
  apply (raise_falls_through_to_return_0
           (env_ignoring (fun _ => true) (bytes "abc") 15) args_in 15 15).
  - find_in.
  - reflexivity.
  - reflexivity.
Defined.

(** ** Transfer and wait *)

Lemma loader_event_before_write max_size ev :
  loader_event max_size ev -> before_write ev.
Proof.
  destruct ev as [| | d | | | | | | | | |]; simpl; intros H; try contradiction;
    try (repeat split; reflexivity).
  destruct d; try contradiction. repeat split; reflexivity.
Qed.

(** C7.  In every run that reaches [waitpid], the trace reads: events that
    neither write, wait nor close the write end; then the write of the whole
    payload (the bytes the loader put in the array, all of them accepted);
    then the close of the write end; then [waitpid]; and after it no write
    and no further wait. *)
Theorem write_close_then_wait e argv w :
  In (EvWaitpid w) (run_trace e argv) ->
  exists pre payload post,
    run_trace e argv =
      pre ++ [EvWrite payload (Z.of_nat (length payload)); EvClose PipeWr;
              EvWaitpid w] ++ post /\
    (exists evs, loaded e (nth 1 argv "") payload evs) /\
    Forall before_write pre /\
    Forall after_wait post.
Proof.
  intros Hin.
  destruct (wait_inv e argv _ Hin) as (payload & evs & Hpr & Hw & Hwait & Htr & Hend).
  pose proof (pr_loaded _ _ _ _ Hpr) as Hld.
  exists (evs ++ [EvPipe true; EvFork (fork_ret e); EvClose PipeRd]), payload,
    (match w with
     | None => [EvStderr msg_wait]
     | Some status => translate_events status
     end).
  split; [exact Htr|]. split; [exists evs; exact Hld|]. split.
  - apply Forall_app. split.
    + eapply Forall_impl; [|exact (ld_events _ _ _ _ Hld)].
      intros ev. apply loader_event_before_write.
    + repeat constructor.
  - destruct w as [status|].
    + apply Forall_forall. intros ev Hev.
      destruct (translate_events_shape _ _ Hev) as (H1 & H2 & _). split; assumption.
    + repeat constructor.
Qed.

Lemma write_close_then_wait_witness :
  exists pre payload post,
    run_trace (env_ok (bytes "abc") 0) args_in =
      pre ++ [EvWrite payload (Z.of_nat (length payload)); EvClose PipeWr;
              EvWaitpid (Some 0)] ++ post /\
    (exists evs, loaded (env_ok (bytes "abc") 0) (nth 1 args_in "") payload evs) /\
    Forall before_write pre /\
    Forall after_wait post.
Proof.
  apply (write_close_then_wait (env_ok (bytes "abc") 0) args_in (Some 0)).
  find_in.
Defined.

(** A [write] that returned did not end the process. *)
Lemma parent_write_alive e argv payload evs data r :
  parent_reached e argv payload evs ->
  In (EvWrite data r) (run_trace e argv) ->
  write_kills e = false.
Proof.
  intros Hpr Hin. rewrite (pr_trace _ _ _ _ Hpr) in Hin.
  apply in_app_or in Hin. destruct Hin as [Hin|Hin].
  { pose proof (ld_events _ _ _ _ (pr_loaded _ _ _ _ Hpr)) as Hevs.
    rewrite Forall_forall in Hevs.
    destruct (loader_event_not_bridge _ _ (Hevs _ Hin)) as (H1 & _).
    destruct data; discriminate H1. }
  unfold parent_events in Hin.
  destruct (write_kills e); [in_cases Hin; discriminate Hin|reflexivity].
Qed.

Lemma parent_write_inv e argv payload evs data r :
  parent_reached e argv payload evs ->
  In (EvWrite data r) (run_trace e argv) ->
  data = payload /\ r = written e payload.
Proof.
  intros Hpr Hin. pose proof (parent_write_alive _ _ _ _ _ _ Hpr Hin) as Hk.
  rewrite (pr_trace _ _ _ _ Hpr) in Hin.
  apply in_app_or in Hin. destruct Hin as [Hin|Hin].
  { pose proof (ld_events _ _ _ _ (pr_loaded _ _ _ _ Hpr)) as Hevs.
    rewrite Forall_forall in Hevs.
    destruct (loader_event_not_bridge _ _ (Hevs _ Hin)) as (H1 & _).
    discriminate H1. }
  unfold parent_events in Hin. rewrite Hk in Hin. simpl in Hin.
  destruct Hin as [Hx|[Hx|[Hx|[Hx|Hx]]]]; try discriminate Hx.
  - injection Hx as <- <-. auto.
  - exfalso. destruct (write_complete e payload).
    + simpl in Hx. destruct Hx as [Hx|[Hx|Hx]]; try discriminate Hx.
      destruct (wait_ret e) as [status|].
      * destruct (translate_events_shape _ _ Hx) as (H1 & _). discriminate H1.
      * in_cases Hx; discriminate Hx.
    + in_cases Hx; discriminate Hx.
Qed.



(** ** Empty input *)

(** C6.  A file that cannot be opened and a file that is empty both make
    [read_file] return 0; and whenever [read_file] returns 0 the program
    prints the "no input" diagnostic as its last action and exits with code
    1, its trace holding only loader events before that: no [pipe], no
    [fork], nothing of the child. *)
Theorem no_input_no_spawn e argv :
  (2 <= length argv)%nat ->
  (fs e (nth 1 argv "") = None \/ fs e (nth 1 argv "") = Some [] ->
   zero_bytes_read e (nth 1 argv "")) /\
  (zero_bytes_read e (nth 1 argv "") ->
   run_end e argv = Exit 1 /\
   (exists evs, run_trace e argv = evs ++ [EvStderr msg_no_input] /\
                Forall (loader_event (MAX_INPUT_SIZE - 1)) evs) /\
   Forall (fun ev => is_spawn ev = false) (run_trace e argv)).
Proof.
  intros Hargc.
  destruct (run_spec e argv Hargc) as (payload & evs & Hld & Hend & Htr).
  destruct (ld_read_file _ _ _ _ Hld) as (s1 & Hrun & Htrace & _).
  split.
  - intros Hfile. unfold zero_bytes_read. rewrite Hrun. simpl.
    pose proof (ld_file _ _ _ _ Hld) as Hfs.
    destruct Hfile as [Hnone|Hempty].
    + rewrite Hnone in Hfs. destruct Hfs as [-> _]. reflexivity.
    + rewrite Hempty in Hfs. destruct Hfs as [[rest Hrest] _].
      symmetry in Hrest. apply app_eq_nil in Hrest. destruct Hrest as [-> _].
      reflexivity.
  - unfold zero_bytes_read. rewrite Hrun. simpl. intros Hzero.
    injection Hzero as Hzero.
    assert (payload = []) as -> by (destruct payload; [reflexivity|simpl in Hzero; lia]).
    rewrite Hend, Htr. simpl. split; [reflexivity|]. split.
    + exists evs. split; [reflexivity|exact (ld_events _ _ _ _ Hld)].
    + apply Forall_app. split.
      * eapply Forall_impl; [|exact (ld_events _ _ _ _ Hld)].
        intros ev Hev. apply (loader_event_not_bridge _ _ Hev).
      * repeat constructor.
Qed.

Lemma no_input_no_spawn_witness :
  run_end env_no_file args_in = Exit 1 /\
  run_end (env_ok [] 0) args_in = Exit 1.
Proof.
  split.
  - apply (no_input_no_spawn env_no_file args_in); [simpl; lia|].
    apply (no_input_no_spawn env_no_file args_in); [simpl; lia|].
    left. reflexivity.
  - apply (no_input_no_spawn (env_ok [] 0) args_in); [simpl; lia|].
    apply (no_input_no_spawn (env_ok [] 0) args_in); [simpl; lia|].
    right. reflexivity.
Defined.

(** ** Truncation *)

Lemma firstn_length_exact {A} (l : list A) n :
  (n <= length l)%nat -> length (firstn n l) = n.
Proof. intros H. apply firstn_length_le. exact H. Qed.

(** C4, as the code has it.  For a file longer than [max_size] whose reads
    do not fail, [read_file] returns [max_size], leaves exactly the first
    [max_size] bytes of the file in the array, and prints the truncation
    warning once, after the reads and before closing the file; it returns
    normally.  And in any run of [read_file], the warning is printed only
    when the count has reached [max_size], every [read] made up to then
    having delivered bytes.  (Whether the file has more bytes at that moment
    is not looked at by the code: see [truncation_claim_fails] and
    [exact_fit_also_warns].) *)
Theorem oversized_input_truncated e filename max_size s :
  0 < max_size < SIZE_MODULUS ->
  max_size <= buf_size (input_buffer s) ->
  (forall content,
     fs e filename = Some content ->
     Forall no_fail (read_plan e) ->
     max_size < Z.of_nat (length content) ->
     exists s' reads,
       read_file e filename max_size s = (Next max_size, s') /\
       buf_load (input_buffer s') 0 (Z.to_nat max_size)
         = Some (firstn (Z.to_nat max_size) content) /\
       trace s' = trace s ++ EvOpen filename true
                    :: reads ++ [EvStderr truncation_warning; EvClose FileFd] /\
       Forall positive_read reads) /\
  (forall evs,
     trace (snd (read_file e filename max_size s)) = trace s ++ evs ->
     In (EvStderr truncation_warning) evs ->
     fst (read_file e filename max_size s) = Next max_size /\
     exists reads,
       evs = EvOpen filename true
               :: reads ++ [EvStderr truncation_warning; EvClose FileFd] /\
       Forall positive_read reads).
Proof.
  intros Hmax Hbuf.
  destruct (read_file_spec e filename max_size s) as
    (n & payload & evs & s' & Hout & Hn & Hnmax & Hholds & Hsize & Hstdin &
     Htrace & Hevs & Hwarn & Hlast & Hfile); [lia|exact Hbuf|].
  split.
  - intros content Hfs Hnf Hlong. rewrite Hfs in Hfile.
    destruct Hfile as [_ Hall]. specialize (Hall Hnf).
    assert (Hlen : Z.of_nat (length payload) = max_size).
    { rewrite Hall, firstn_length_exact by lia. lia. }
    assert (Hin : In (EvStderr truncation_warning) evs) by (apply Hwarn; lia).
    destruct (Hlast Hin) as (reads & Hshape & Hreads).
    exists s', reads. rewrite Hout.
    split; [f_equal; f_equal; lia|]. split; [|split].
    + rewrite <- Hall. replace (Z.to_nat max_size) with (length payload) by lia.
      apply holds_load. exact Hholds.
    + rewrite Htrace, Hshape. reflexivity.
    + exact Hreads.
  - intros evs' Htr Hin. rewrite Hout in *. simpl in *.
    rewrite Htrace in Htr. apply app_inv_head in Htr. subst evs'.
    split; [f_equal; apply Hwarn in Hin; lia|]. exact (Hlast Hin).
Qed.

Lemma oversized_input_truncated_witness :
  exists s' reads,
    read_file (env_chunked 2 (bytes "abcdef")) "in" 3 initial_state = (Next 3, s') /\
    buf_load (input_buffer s') 0 (Z.to_nat 3)
      = Some (firstn (Z.to_nat 3) (bytes "abcdef")) /\
    trace s' = trace initial_state ++ EvOpen "in" true
                 :: reads ++ [EvStderr truncation_warning; EvClose FileFd] /\
    Forall positive_read reads.
Proof.
  apply (oversized_input_truncated (env_chunked 2 (bytes "abcdef")) "in" 3 initial_state).
  - vm_compute. split; reflexivity.
  - vm_compute. discriminate.
  - reflexivity.
  - repeat constructor; discriminate.
  - vm_compute. reflexivity.
Defined.

(** C4 as stated fails twice.  A file of exactly [max_size] bytes is read to
    its end, with nothing left in the stream when the count reaches
    [max_size], and the warning is printed all the same.  And a file longer
    than [max_size] whose second [read] fails gives fewer than [max_size]
    bytes and no warning. *)
Lemma truncation_claim_fails :
  (let out := read_file (env_ok (bytes "abc") 0) "in" 3 initial_state in
   fst out = Next 3 /\
   file_rest (snd out) = [] /\
   In (EvStderr truncation_warning) (trace (snd out))) /\
  (let out := read_file (env_read_error (bytes "abcdef")) "in" 3 initial_state in
   3 < Z.of_nat (length (bytes "abcdef")) /\
   fst out = Next 2 /\
   trace (snd out)
     = [EvOpen "in" true; EvRead 0 3 2; EvRead 2 1 (-1); EvClose FileFd]).
Proof.
  split.
  - split; [reflexivity|]. split; [reflexivity|]. find_in.
  - split; [reflexivity|]. split; reflexivity.
Qed.

(** X13.  The boundary next to C4: a file of exactly [max_size] bytes is read in
    full, nothing is cut off, and the warning is printed all the same (the
    loop leaves at line 33 before a further [read] could report the end of
    the file). *)
Remark exact_fit_also_warns e filename max_size s content :
  0 < max_size < SIZE_MODULUS ->
  max_size <= buf_size (input_buffer s) ->
  fs e filename = Some content ->
  Forall no_fail (read_plan e) ->
  Z.of_nat (length content) = max_size ->
  exists s' evs,
    read_file e filename max_size s = (Next max_size, s') /\
    buf_load (input_buffer s') 0 (length content) = Some content /\
    trace s' = trace s ++ evs /\
    In (EvStderr truncation_warning) evs.
Proof.
  intros Hmax Hbuf Hfs Hnf Hlen.
  destruct (read_file_spec e filename max_size s) as
    (n & payload & evs & s' & Hout & Hn & Hnmax & Hholds & Hsize & Hstdin &
     Htrace & Hevs & Hwarn & Hlast & Hfile); [lia|exact Hbuf|].
  rewrite Hfs in Hfile. destruct Hfile as [_ Hall]. specialize (Hall Hnf).
  rewrite firstn_all2 in Hall by lia. subst payload.
  exists s', evs. rewrite Hout.
  split; [f_equal; f_equal; lia|]. split; [apply holds_load; exact Hholds|].
  split; [exact Htrace|]. apply Hwarn. lia.
Qed.

(** ** Memory safety of the array *)

Lemma loader_event_read_in_bounds max_size ev :
  loader_event max_size ev -> read_in_bounds max_size ev.
Proof. destruct ev; simpl; auto. Qed.

Lemma translate_end_safe e status :
  translate_end e status <> Fault /\ translate_end e status <> OutOfFuel.
Proof.
  unfold translate_end.
  destruct (WIFEXITED status), (WIFSIGNALED status),
    (negb (WEXITSTATUS status =? 0)), (sig_fatal e SIGSEGV),
    (sig_fatal e (WTERMSIG status)); split; discriminate.
Qed.

Lemma tail_end_safe e payload :
  tail_end e payload <> Fault /\ tail_end e payload <> OutOfFuel.
Proof.
  destruct payload as [|x payload]; [split; discriminate|].
  unfold tail_end, bridge_end, child_end, parent_end.
  destruct (pipe_ok e); [|split; discriminate].
  destruct (fork_ret e =? -1); [split; discriminate|].
  destruct (fork_ret e =? 0).
  - destruct (dup2_ok e && exec_ok e); split; discriminate.
  - destruct (write_kills e); [split; discriminate|].
    destruct (write_complete e (x :: payload)); [|split; discriminate].
    destruct (wait_ret e) as [status|]; [|split; discriminate].
    apply translate_end_safe.
Qed.

Lemma tail_events_no_read e payload :
  Forall (fun ev => is_read ev = false) (tail_events e payload).
Proof.
  destruct payload as [|x payload]; [repeat constructor|].
  unfold tail_events, bridge_events, child_events, parent_events, translate_events.
  destruct (pipe_ok e); [|repeat constructor].
  destruct (fork_ret e =? -1); [repeat constructor|].
  destruct (fork_ret e =? 0).
  - destruct (dup2_ok e), (exec_ok e); repeat constructor.
  - destruct (write_kills e); [repeat constructor|].
    destruct (write_complete e (x :: payload)); [|repeat constructor].
    destruct (wait_ret e) as [status|]; [|repeat constructor].
    destruct (WIFEXITED status), (WIFSIGNALED status),
      (negb (WEXITSTATUS status =? 0)); repeat constructor.
Qed.

(** C10.  Whatever the operating system answers, in the parent and in the
    child: [read_file], called with capacity [MAX_INPUT_SIZE - 1], returns
    a count [bytes_read] with [0 <= bytes_read <= MAX_INPUT_SIZE - 1], so
    that index [bytes_read] of line 63 lies inside the array of
    [MAX_INPUT_SIZE] bytes; every [read] is given a destination range inside
    the first [MAX_INPUT_SIZE - 1] bytes of the array; and the run never
    ends in an access outside the array (nor is the read loop cut off). *)
Theorem input_buffer_stores_in_bounds e argv :
  (exists bytes_read s',
     read_file e (nth 1 argv "") (MAX_INPUT_SIZE - 1) initial_state
       = (Next bytes_read, s') /\
     0 <= bytes_read <= MAX_INPUT_SIZE - 1 /\
     buf_size (input_buffer s') = MAX_INPUT_SIZE /\
     in_bounds (input_buffer s') bytes_read = true) /\
  Forall (read_in_bounds (MAX_INPUT_SIZE - 1)) (run_trace e argv) /\
  run_end e argv <> Fault /\
  run_end e argv <> OutOfFuel.
Proof.
  split.
  - destruct (read_file_spec e (nth 1 argv "") (MAX_INPUT_SIZE - 1) initial_state)
      as (n & payload & evs & s' & Hout & Hn & Hnmax & Hholds & Hsize & _);
      [pose proof MAX_INPUT_SIZE_fits; lia|rewrite initial_buffer_size; lia|].
    exists n, s'. split; [exact Hout|]. split; [lia|].
    rewrite initial_buffer_size in Hsize. split; [exact Hsize|].
    unfold in_bounds. rewrite Hsize. apply andb_true_intro. split.
    + apply Z.leb_le. lia.
    + apply Z.ltb_lt. lia.
  - destruct (Nat.lt_ge_cases (length argv) 2) as [Hargc|Hargc].
    + destruct (run_usage e argv Hargc) as [Hend Htr]. rewrite Hend, Htr.
      split; [repeat constructor|]. split; discriminate.
    + destruct (run_spec e argv Hargc) as (payload & evs & Hld & Hend & Htr).
      rewrite Hend, Htr. split; [|apply tail_end_safe].
      apply Forall_app. split.
      * eapply Forall_impl; [|exact (ld_events _ _ _ _ Hld)].
        intros ev. apply loader_event_read_in_bounds.
      * eapply Forall_impl; [|exact (tail_events_no_read e payload)].
        intros [] Hev; simpl in *; try exact I. discriminate Hev.
Qed.

(** ** Parent and child together *)

Lemma pipe_bytes_no_write tr :
  Forall (fun ev => is_write ev = false) tr -> pipe_bytes tr = [].
Proof.
  induction 1 as [|ev tr Hev _ IH]; [reflexivity|].
  unfold pipe_bytes in *. simpl. rewrite IH.
  destruct ev; try reflexivity. discriminate Hev.
Qed.

Lemma pipe_bytes_cons ev tr :
  pipe_bytes (ev :: tr) =
  match ev with
  | EvWrite data r => firstn (Z.to_nat r) data
  | _ => []
  end ++ pipe_bytes tr.
Proof. reflexivity. Qed.

Lemma pipe_bytes_app a b : pipe_bytes (a ++ b) = pipe_bytes a ++ pipe_bytes b.
Proof. apply flat_map_app. Qed.

Lemma c_string_no_zero : forall data, ~ In x00 data -> c_string data = data.
Proof.
  induction data as [|x data IH]; intros Hno; [reflexivity|]. simpl.
  destruct (Byte.eqb x x00) eqn:Heq.
  - exfalso. apply Hno. left. symmetry. apply Byte.byte_dec_bl. exact Heq.
  - rewrite IH; [reflexivity|]. intros Hin. apply Hno. right. exact Hin.
Qed.

(** The loader's result when the file fits and no read fails. *)
Lemma loaded_whole_file e filename payload evs content :
  loaded e filename payload evs ->
  fs e filename = Some content ->
  Forall no_fail (read_plan e) ->
  Z.of_nat (length content) <= MAX_INPUT_SIZE - 1 ->
  payload = content.
Proof.
  intros Hld Hfs Hnf Hlen. pose proof (ld_file _ _ _ _ Hld) as Hfile.
  rewrite Hfs in Hfile. destruct Hfile as [_ Hall].
  rewrite (Hall Hnf). apply firstn_all2. lia.
Qed.

(** A [write] that returns a count did not find the pipe broken. *)
Lemma written_count_alive e payload :
  0 <= written e payload -> write_kills e = false.
Proof.
  unfold written, write_kills, write_amount.
  destruct (write_plan e); try reflexivity. lia.
Qed.

(** C3, as the code has it.  For a file of S bytes, 0 < S < MAX_INPUT_SIZE
    - 1, read without error, with [pipe], [fork], [dup2] and [execlp]
    succeeding, the [write] accepted in full, and the pipe's read end not
    on descriptor 0: between [pipe] and the close of the write end the
    parent does nothing but fork, close the read end and write the S bytes
    of the file, so these are exactly the bytes that go into the pipe; the
    child becomes the interpreter with the pipe as its standard input and
    one argument after the script path, and that argument is the file's
    bytes up to the first zero byte: all S bytes when the file holds no zero
    byte. *)
Theorem child_receives_payload e argv image_status content :
  (2 <= length argv)%nat ->
  fs e (nth 1 argv "") = Some content ->
  Forall no_fail (read_plan e) ->
  0 < Z.of_nat (length content) < MAX_INPUT_SIZE - 1 ->
  pipe_ok e = true ->
  pipe_fd e 0 <> STDIN_FILENO ->
  0 < fork_ret e ->
  dup2_ok e = true ->
  exec_ok e = true ->
  written e content = Z.of_nat (length content) ->
  pipe_bytes (snd (parent_of e image_status argv)) = content /\
  (exists evs post,
     snd (parent_of e image_status argv) =
       evs ++ [EvPipe true; EvFork (fork_ret e); EvClose PipeRd;
               EvWrite content (Z.of_nat (length content)); EvClose PipeWr]
           ++ post /\
     Forall (loader_event (MAX_INPUT_SIZE - 1)) evs /\
     Forall (fun ev => is_write ev = false) post) /\
  fst (child_of e argv)
    = Execed [bytes "python3"; bytes PYTHON_SCRIPT; c_string content] true /\
  (~ In x00 content -> c_string content = content).
Proof.
  intros Hargc Hfs Hnf Hlen Hpipe Hfd0 Hfork Hdup Hexec Hwr.
  assert (Hparent : exists evs post,
            snd (parent_of e image_status argv) =
              evs ++ [EvPipe true; EvFork (fork_ret e); EvClose PipeRd;
                      EvWrite content (Z.of_nat (length content)); EvClose PipeWr]
                  ++ post /\
            Forall (loader_event (MAX_INPUT_SIZE - 1)) evs /\
            Forall (fun ev => is_write ev = false) post).
  { unfold parent_of, observe. simpl snd.
    set (e' := with_wait e _).
    destruct (run_spec e' argv Hargc) as (payload & evs & Hld & _ & Htr).
    assert (payload = content) as ->
      by (apply (loaded_whole_file e' _ _ _ _ Hld Hfs Hnf); lia).
    exists evs,
      (EvWaitpid (wait_ret e') ::
       match wait_ret e' with
       | None => [EvStderr msg_wait]
       | Some status => translate_events status
       end).
    split; [|split; [exact (ld_events _ _ _ _ Hld)|]].
    - rewrite Htr. f_equal.
      destruct content as [|x content]; [simpl in Hlen; lia|].
      unfold tail_events, bridge_events. change (pipe_ok e') with (pipe_ok e).
      change (fork_ret e') with (fork_ret e). rewrite Hpipe.
      replace (fork_ret e =? -1) with false by (symmetry; apply Z.eqb_neq; lia).
      replace (fork_ret e =? 0) with false by (symmetry; apply Z.eqb_neq; lia).
      unfold parent_events.
      assert (Hw' : written e' (x :: content) = Z.of_nat (length (x :: content)))
        by exact Hwr.
      assert (Hwc : write_complete e' (x :: content) = true)
        by (apply write_complete_iff; [lia|exact Hw']).
      assert (Hk : write_kills e' = false)
        by (apply (written_count_alive e' (x :: content)); rewrite Hw'; lia).
      rewrite Hk, Hwc, Hw'. reflexivity.
    - constructor; [reflexivity|].
      destruct (wait_ret e') as [status|]; [|repeat constructor].
      apply Forall_forall. intros ev Hev.
      apply (translate_events_shape _ _ Hev). }
  split; [|split; [exact Hparent|split]].
  - destruct Hparent as (evs & post & -> & Hevs & Hpost).
    rewrite !pipe_bytes_app.
    rewrite (pipe_bytes_no_write evs), (pipe_bytes_no_write post); [|exact Hpost|].
    2:{ eapply Forall_impl; [|exact Hevs].
        intros ev Hev. apply (loader_event_not_bridge _ _ Hev). }
    rewrite !pipe_bytes_cons. cbv iota beta.
    change (pipe_bytes []) with (@nil byte).
    rewrite !app_nil_l, !app_nil_r, Nat2Z.id. apply firstn_all.
  - unfold child_of, observe. simpl fst.
    set (e' := with_fork e 0).
    destruct (run_spec e' argv Hargc) as (payload & evs & Hld & Hend & _).
    assert (payload = content) as ->
      by (apply (loaded_whole_file e' _ _ _ _ Hld Hfs Hnf); lia).
    rewrite Hend.
    destruct content as [|x content]; [simpl in Hlen; lia|].
    unfold tail_end, bridge_end, child_end, child_stdin_is_pipe. simpl.
    rewrite Hpipe, Hdup, Hexec. simpl.
    replace (Z.of_N (fst (pipe_fds e)) =? 0) with false
      by (symmetry; apply Z.eqb_neq; exact Hfd0).
    reflexivity.
  - apply c_string_no_zero.
Qed.

Lemma child_receives_payload_witness :
  pipe_bytes (snd (parent_of (env_ok (bytes "abc") 0) 0 args_in)) = bytes "abc" /\
  fst (child_of (env_ok (bytes "abc") 0) args_in)
    = Execed [bytes "python3"; bytes PYTHON_SCRIPT; c_string (bytes "abc")] true.
Proof.
  destruct (child_receives_payload (env_ok (bytes "abc") 0) args_in 0 (bytes "abc"))
    as (Hpipe & _ & Hchild & _).
  - simpl. lia.
  - reflexivity.
  - constructor.
  - vm_compute. split; reflexivity.
  - reflexivity.
  - vm_compute. discriminate.
  - reflexivity.
  - reflexivity.
  - reflexivity.
  - reflexivity.
  - split; [exact Hpipe|exact Hchild].
Defined.

(** C3 as stated fails on a payload with a zero byte: of the three bytes
    41 00 42 the child gets all three on its standard input, but its
    argument is the one byte before the zero byte. *)
Lemma child_argument_stops_at_zero_byte :
  let content := [x41; x00; x42] in
  let e := env_ok content 0 in
  0 < Z.of_nat (length content) < MAX_INPUT_SIZE - 1 /\
  pipe_bytes (snd (parent_of e 0 args_in)) = content /\
  fst (child_of e args_in)
    = Execed [bytes "python3"; bytes PYTHON_SCRIPT; [x41]] true /\
  [x41] <> content.
Proof.
  split; [vm_compute; split; reflexivity|].
  split; [vm_compute; reflexivity|].
  split; [vm_compute; reflexivity|]. discriminate.
Qed.

(** ** Failure of execlp *)

(** Only the child calls [execlp], after a successful [dup2]. *)
Lemma exec_inv e argv args ok :
  In (EvExec args ok) (run_trace e argv) ->
  exists payload evs,
    loaded e (nth 1 argv "") payload evs /\
    args = exec_args payload /\
    exec_ok e = ok /\
    run_end e argv = child_end e payload /\
    dup2_ok e = true /\
    run_trace e argv =
      (evs ++ [EvPipe true; EvFork 0; EvClose PipeWr; EvDup2 true; EvClose PipeRd])
      ++ EvExec args ok :: (if ok then [] else [EvStderr msg_exec]).
Proof.
  intros Hin.
  destruct (Nat.lt_ge_cases (length argv) 2) as [Hargc|Hargc].
  { destruct (run_usage e argv Hargc) as [_ Htr]. rewrite Htr in Hin.
    in_cases Hin; discriminate Hin. }
  destruct (run_spec e argv Hargc) as (payload & evs & Hld & Hend & Htr).
  exists payload, evs. split; [exact Hld|].
  rewrite Htr in Hin. apply in_app_or in Hin. destruct Hin as [Hin|Hin].
  { pose proof (ld_events _ _ _ _ Hld) as Hevs. rewrite Forall_forall in Hevs.
    destruct (loader_event_not_bridge _ _ (Hevs _ Hin)) as (_ & _ & H3 & _).
    discriminate H3. }
  destruct payload as [|x payload]; [in_cases Hin; discriminate Hin|].
  unfold tail_events, bridge_events in Hin, Htr.
  unfold tail_end, bridge_end in Hend.
  destruct (pipe_ok e); [|in_cases Hin; discriminate Hin].
  destruct (Z.eqb_spec (fork_ret e) (-1)) as [Hfail|Hfork];
    [in_cases Hin; discriminate Hin|].
  destruct (Z.eqb_spec (fork_ret e) 0) as [Hchild|Hparent].
  - unfold child_events in Hin, Htr. rewrite Hchild in Htr.
    destruct (dup2_ok e); [|in_cases Hin; discriminate Hin].
    assert (Hargs : args = exec_args (x :: payload) /\ exec_ok e = ok).
    { destruct (exec_ok e); in_cases Hin; try discriminate Hin;
        injection Hin as <- <-; auto. }
    destruct Hargs as [-> <-].
    split; [reflexivity|]. split; [reflexivity|]. split; [exact Hend|].
    split; [reflexivity|]. rewrite Htr, <- app_assoc. reflexivity.
  - exfalso. unfold parent_events in Hin.
    destruct (write_kills e); [in_cases Hin; discriminate Hin|].
    destruct (write_complete e (x :: payload)).
    + simpl in Hin.
      destruct Hin as [Hx|[Hx|[Hx|[Hx|[Hx|[Hx|Hx]]]]]]; try discriminate Hx.
      destruct (wait_ret e) as [status|].
      * destruct (translate_events_shape _ _ Hx) as (_ & _ & H3). discriminate H3.
      * in_cases Hx; discriminate Hx.
    + in_cases Hin; discriminate Hin.
Qed.

(** What the parent does and how it ends does not depend on whether the
    child's [execlp] succeeds, except through the wait status. *)
Lemma parent_view_exec_irrelevant e ok argv :
  fork_ret e <> 0 -> observe (with_exec e ok) argv = observe e argv.
Proof.
  intros Hfork. unfold observe.
  destruct (Nat.lt_ge_cases (length argv) 2) as [Hargc|Hargc].
  - destruct (run_usage e argv Hargc) as [-> ->].
    destruct (run_usage (with_exec e ok) argv Hargc) as [-> ->]. reflexivity.
  - destruct (read_file_loaded e (nth 1 argv "")) as (payload & evs & Hld).
    assert (Hld' : loaded (with_exec e ok) (nth 1 argv "") payload evs).
    { destruct Hld as [H1 H2 H3 H4 H5 H6]. constructor; assumption. }
    destruct (run_loaded e argv payload evs Hargc Hld) as [-> ->].
    destruct (run_loaded _ argv payload evs Hargc Hld') as [-> ->].
    apply Z.eqb_neq in Hfork.
    destruct payload as [|x payload]; [reflexivity|].
    unfold tail_end, tail_events, bridge_end, bridge_events. simpl.
    rewrite Hfork. reflexivity.
Qed.

(** C9.  When [execlp] returns in the child, the child prints the exec
    diagnostic as its last action and exits with code 1.  A parent that
    gets to read that child's wait status reads an exit with code 1: it
    prints the vulnerability message and raises SIGSEGV as its last
    actions, ends by SIGSEGV when the signal is fatal and with code 0
    otherwise, so never with the exit code 1 of a tooling failure; and it
    cannot be told apart from the parent of a child whose [execlp] succeeded
    and whose Python script exited with code 1. *)
Theorem exec_failure_reported_as_vulnerability e argv image_status args :
  In (EvExec args false) (snd (child_of e argv)) ->
  (fst (child_of e argv) = Exit 1 /\
   exists pre, snd (child_of e argv) =
               pre ++ [EvExec args false; EvStderr msg_exec]) /\
  (forall status,
     In (EvWaitpid (Some status)) (snd (parent_of e image_status argv)) ->
     status = W_EXITCODE 1 0 /\
     classify status = ExitedWithCode 1 /\
     (exists pre, snd (parent_of e image_status argv) =
                  pre ++ [EvWaitpid (Some status); EvStderr msg_vulnerability;
                          EvRaise SIGSEGV]) /\
     fst (parent_of e image_status argv)
       = (if sig_fatal e SIGSEGV then Signaled SIGSEGV else Exit 0) /\
     fst (parent_of e image_status argv) <> Exit 1 /\
     parent_of e image_status argv
       = parent_of (with_exec e true) (W_EXITCODE 1 0) argv).
Proof.
  intros Hexec. unfold child_of, observe in Hexec. simpl snd in Hexec.
  destruct (exec_inv _ _ _ _ Hexec)
    as (payload & evs & Hld & Hargs & Hok & Hend & Hdup & Htr).
  assert (Hchild : fst (child_of e argv) = Exit 1).
  { unfold child_of, observe. simpl fst. rewrite Hend. unfold child_end.
    rewrite Hok, andb_false_r. reflexivity. }
  split.
  { split; [exact Hchild|]. unfold child_of, observe. simpl snd.
    rewrite Htr. eexists. reflexivity. }
  intros status Hin. unfold parent_of in *. rewrite Hchild in *.
  change (child_status image_status (Exit 1)) with (W_EXITCODE 1 0) in *.
  set (ep := with_wait e (option_map (fun _ => W_EXITCODE 1 0) (wait_ret e))) in *.
  unfold observe in Hin. simpl snd in Hin.
  destruct (wait_inv ep argv _ Hin) as (p & ev & Hpr & Hw & Hwait & Htrp & Hendp).
  assert (Hst : status = W_EXITCODE 1 0).
  { simpl in Hwait. destruct (wait_ret e); simpl in Hwait; [|discriminate Hwait].
    injection Hwait as <-. reflexivity. }
  subst status.
  assert (Hwe : wait_ret e <> None).
  { simpl in Hwait. destruct (wait_ret e); [discriminate|discriminate Hwait]. }
  split; [reflexivity|]. split; [reflexivity|].
  pose proof (translation_cases ep (W_EXITCODE 1 0)) as Hcases.
  change (classify (W_EXITCODE 1 0)) with (ExitedWithCode 1) in Hcases.
  simpl in Hcases. destruct Hcases as [Hev Hen].
  split; [|split; [|split]].
  - unfold observe. simpl snd. rewrite Htrp, Hev.
    exists ((ev ++ [EvPipe true; EvFork (fork_ret ep); EvClose PipeRd])
            ++ [EvWrite p (Z.of_nat (length p)); EvClose PipeWr]).
    rewrite <- !app_assoc. reflexivity.
  - unfold observe. simpl fst. rewrite Hendp. exact Hen.
  - unfold observe. simpl fst. rewrite Hendp, Hen.
    destruct (sig_fatal e SIGSEGV); discriminate.
  - assert (Hforkp : fork_ret e <> 0) by exact (proj2 (pr_fork _ _ _ _ Hpr)).
    assert (Hc2 : fst (child_of (with_exec e true) argv)
                  = Execed (exec_args payload) (child_stdin_is_pipe e)).
    { unfold child_of, observe. simpl fst.
      assert (Hld2 : loaded (with_fork (with_exec e true) 0) (nth 1 argv "") payload evs)
        by (destruct Hld as [H1 H2 H3 H4 H5 H6]; constructor; assumption).
      destruct (Nat.lt_ge_cases (length argv) 2) as [Hargc|Hargc].
      { destruct (run_usage (with_fork e 0) argv Hargc) as [_ Hu].
        rewrite Hu in Hexec. in_cases Hexec; discriminate Hexec. }
      destruct (run_loaded _ argv payload evs Hargc Hld2) as [-> _].
      destruct (run_loaded _ argv payload evs Hargc Hld) as [Hend1 Htr1].
      destruct payload as [|x payload].
      - exfalso. rewrite Htr1 in Hexec. apply in_app_or in Hexec.
        destruct Hexec as [Hx|Hx].
        + pose proof (ld_events _ _ _ _ Hld) as Hevs.
          rewrite Forall_forall in Hevs.
          destruct (loader_event_not_bridge _ _ (Hevs _ Hx)) as (_ & _ & H3 & _).
          discriminate H3.
        + in_cases Hx; discriminate Hx.
      - assert (Hpipe : pipe_ok e = true).
        { destruct (pipe_ok e) eqn:Hp; [reflexivity|]. exfalso.
          rewrite Htr1 in Hexec. apply in_app_or in Hexec.
          destruct Hexec as [Hx|Hx].
          + pose proof (ld_events _ _ _ _ Hld) as Hevs.
            rewrite Forall_forall in Hevs.
            destruct (loader_event_not_bridge _ _ (Hevs _ Hx)) as (_ & _ & H3 & _).
            discriminate H3.
          + unfold tail_events, bridge_events in Hx. simpl in Hx.
            rewrite Hp in Hx. in_cases Hx; discriminate Hx. }
        unfold tail_end, bridge_end, child_end. simpl. simpl in Hdup.
        rewrite Hpipe, Hdup. reflexivity. }
    rewrite Hc2.
    change (child_status (W_EXITCODE 1 0)
              (Execed (exec_args payload) (child_stdin_is_pipe e)))
      with (W_EXITCODE 1 0).
    symmetry.
    exact (parent_view_exec_irrelevant ep true argv Hforkp).
Qed.

Lemma exec_failure_reported_as_vulnerability_witness :
  fst (child_of (env_exec_fails (bytes "abc")) args_in) = Exit 1 /\
  fst (parent_of (env_exec_fails (bytes "abc")) 0 args_in) = Signaled SIGSEGV.
Proof.
  destruct (exec_failure_reported_as_vulnerability
              (env_exec_fails (bytes "abc")) args_in 0
              (exec_args (bytes "abc")) ltac:(find_in)) as [[Hchild _] Hparent].
  split; [exact Hchild|].
  destruct (Hparent 256 ltac:(find_in)) as (_ & _ & _ & Hend & _).
  exact Hend.
Defined.

(** * Further properties of the code *)

(** ** Failures before the transfer *)

Ltac not_loader Hld Hin :=
  let Hevs := fresh "Hevs" in
  pose proof (ld_events _ _ _ _ Hld) as Hevs;
  rewrite Forall_forall in Hevs;
  let H := fresh "H" in
  pose proof (loader_event_not_bridge _ _ (Hevs _ Hin)) as H;
  simpl in H; destruct H as (? & ? & ? & ?); discriminate.

Lemma loaded_quiet e filename payload evs :
  loaded e filename payload evs ->
  Forall (fun ev => is_write ev = false /\ is_waitpid ev = false /\
                    is_spawn ev = false /\ is_raise ev = false) evs.
Proof.
  intros Hld. eapply Forall_impl; [|exact (ld_events _ _ _ _ Hld)].
  intros ev. apply loader_event_not_bridge.
Qed.

(** X1.  Started without a file argument ([argc] 0 or 1), [main] prints
    the usage line naming [argv[0]] and exits with code 1; that line is its
    only event: it opens no file and creates no pipe or child. *)
Theorem missing_argument_prints_usage e argv :
  (length argv < 2)%nat ->
  run_end e argv = Exit 1 /\
  run_trace e argv = [EvStderr (msg_usage (program_name argv))] /\
  (forall name rest, argv = name :: rest -> program_name argv = name).
Proof.
  intros Hargc. destruct (run_usage e argv Hargc) as [Hend Htr].
  split; [exact Hend|]. split; [exact Htr|].
  intros name rest ->. reflexivity.
Qed.

Lemma missing_argument_prints_usage_witness :
  run_trace (env_ok (bytes "abc") 0) ["wrapper"]
    = [EvStderr (msg_usage "wrapper")].
Proof.
  apply (missing_argument_prints_usage (env_ok (bytes "abc") 0) ["wrapper"]).
  simpl. lia.
Defined.

(** X2.  When [pipe] fails (line 66), the program prints the pipe
    diagnostic as its last action and exits with code 1; before the [pipe]
    call there are only loader events, so no child is created and nothing
    is written or waited for. *)
Theorem pipe_failure_exits_1 e argv :
  In (EvPipe false) (run_trace e argv) ->
  run_end e argv = Exit 1 /\
  exists evs,
    run_trace e argv = evs ++ [EvPipe false; EvStderr msg_pipe] /\
    Forall (loader_event (MAX_INPUT_SIZE - 1)) evs.
Proof.
  intros Hin.
  destruct (Nat.lt_ge_cases (length argv) 2) as [Hargc|Hargc].
  { destruct (run_usage e argv Hargc) as [_ Htr]. rewrite Htr in Hin.
    in_cases Hin; discriminate Hin. }
  destruct (run_spec e argv Hargc) as (payload & evs & Hld & Hend & Htr).
  rewrite Htr in Hin. apply in_app_or in Hin.
  destruct Hin as [Hin|Hin]; [not_loader Hld Hin|].
  destruct payload as [|x payload]; [in_cases Hin; discriminate Hin|].
  rewrite Hend, Htr. unfold tail_events, tail_end, bridge_events, bridge_end in *.
  destruct (pipe_ok e).
  - exfalso. destruct (fork_ret e =? -1); [in_cases Hin; discriminate Hin|].
    destruct (fork_ret e =? 0).
    + unfold child_events in Hin.
      destruct (dup2_ok e), (exec_ok e); in_cases Hin; discriminate Hin.
    + unfold parent_events in Hin.
      destruct (write_kills e); [in_cases Hin; discriminate Hin|].
      destruct (write_complete e (x :: payload)).
      * simpl in Hin.
        destruct Hin as [Hx|[Hx|[Hx|[Hx|[Hx|[Hx|Hx]]]]]]; try discriminate Hx.
        destruct (wait_ret e) as [status|].
        -- destruct (translate_events_shape _ _ Hx) as (_ & _ & H3). discriminate H3.
        -- in_cases Hx; discriminate Hx.
      * in_cases Hin; discriminate Hin.
  - split; [reflexivity|]. exists evs.
    split; [reflexivity|exact (ld_events _ _ _ _ Hld)].
Qed.

Lemma pipe_failure_exits_1_witness :
  run_end (env_with false 4242 true (Some 0) (bytes "abc")) args_in = Exit 1.
Proof.
  apply (pipe_failure_exits_1 (env_with false 4242 true (Some 0) (bytes "abc")) args_in).
  find_in.
Defined.

(** X3.  When [fork] fails (line 73), the program prints the fork
    diagnostic as its last action and exits with code 1, right after the
    successful [pipe]: it closes neither end of the pipe, writes nothing and
    waits for nothing. *)
Theorem fork_failure_exits_1 e argv :
  In (EvFork (-1)) (run_trace e argv) ->
  run_end e argv = Exit 1 /\
  exists evs,
    run_trace e argv = evs ++ [EvPipe true; EvFork (-1); EvStderr msg_fork] /\
    Forall (loader_event (MAX_INPUT_SIZE - 1)) evs.
Proof.
  intros Hin.
  destruct (Nat.lt_ge_cases (length argv) 2) as [Hargc|Hargc].
  { destruct (run_usage e argv Hargc) as [_ Htr]. rewrite Htr in Hin.
    in_cases Hin; discriminate Hin. }
  destruct (run_spec e argv Hargc) as (payload & evs & Hld & Hend & Htr).
  rewrite Htr in Hin. apply in_app_or in Hin.
  destruct Hin as [Hin|Hin]; [not_loader Hld Hin|].
  destruct payload as [|x payload]; [in_cases Hin; discriminate Hin|].
  rewrite Hend, Htr. unfold tail_events, tail_end, bridge_events, bridge_end in *.
  destruct (pipe_ok e); [|in_cases Hin; discriminate Hin].
  destruct (Z.eqb_spec (fork_ret e) (-1)) as [Hfail|Hfork].
  - rewrite Hfail. split; [reflexivity|]. exists evs.
    split; [reflexivity|exact (ld_events _ _ _ _ Hld)].
  - exfalso. destruct (fork_ret e =? 0).
    + unfold child_events in Hin. simpl in Hin.
      destruct Hin as [Hx|[Hx|Hx]]; try discriminate Hx.
      * injection Hx as Hx. lia.
      * destruct (dup2_ok e), (exec_ok e); in_cases Hx; discriminate Hx.
    + unfold parent_events in Hin.
      destruct (write_kills e);
        [in_cases Hin; try discriminate Hin; injection Hin as Hin; lia|].
      simpl in Hin.
      destruct Hin as [Hx|[Hx|Hx]]; try discriminate Hx.
      * injection Hx as Hx. lia.
      * destruct (write_complete e (x :: payload)).
        -- simpl in Hx.
           destruct Hx as [Hx|[Hx|[Hx|[Hx|Hx]]]]; try discriminate Hx.
           destruct (wait_ret e) as [status|].
           ++ destruct (translate_events_shape _ _ Hx) as (_ & _ & H3). discriminate H3.
           ++ in_cases Hx; discriminate Hx.
        -- in_cases Hx; discriminate Hx.
Qed.

Lemma fork_failure_exits_1_witness :
  run_end (env_with true (-1) true (Some 0) (bytes "abc")) args_in = Exit 1.
Proof.
  apply (fork_failure_exits_1 (env_with true (-1) true (Some 0) (bytes "abc")) args_in).
  find_in.
Defined.

(** ** The child *)

(** Everything the run of a child can contain after the loader, by cases
    on [dup2] and [execlp]. *)
Lemma dup2_inv e argv ok :
  In (EvDup2 ok) (run_trace e argv) ->
  exists payload evs,
    loaded e (nth 1 argv "") payload evs /\
    payload <> [] /\
    pipe_ok e = true /\ fork_ret e = 0 /\ dup2_ok e = ok /\
    run_end e argv = child_end e payload /\
    run_trace e argv =
      evs ++ EvPipe true :: EvFork 0 :: child_events e payload.
Proof.
  intros Hin.
  destruct (Nat.lt_ge_cases (length argv) 2) as [Hargc|Hargc].
  { destruct (run_usage e argv Hargc) as [_ Htr]. rewrite Htr in Hin.
    in_cases Hin; discriminate Hin. }
  destruct (run_spec e argv Hargc) as (payload & evs & Hld & Hend & Htr).
  exists payload, evs. split; [exact Hld|].
  rewrite Htr in Hin. apply in_app_or in Hin.
  destruct Hin as [Hin|Hin]; [not_loader Hld Hin|].
  destruct payload as [|x payload]; [in_cases Hin; discriminate Hin|].
  split; [discriminate|].
  rewrite Hend, Htr. unfold tail_events, tail_end, bridge_events, bridge_end in *.
  destruct (pipe_ok e); [|in_cases Hin; discriminate Hin].
  destruct (fork_ret e =? -1); [in_cases Hin; discriminate Hin|].
  destruct (Z.eqb_spec (fork_ret e) 0) as [Hchild|Hparent].
  - rewrite Hchild. split; [reflexivity|]. split; [reflexivity|].
    split; [|split; reflexivity].
    unfold child_events in Hin. simpl in Hin.
    destruct Hin as [Hx|[Hx|[Hx|[Hx|Hx]]]]; try discriminate Hx.
    + injection Hx as Hx. exact Hx.
    + destruct (dup2_ok e), (exec_ok e); in_cases Hx; discriminate Hx.
  - exfalso. unfold parent_events in Hin.
    destruct (write_kills e); [in_cases Hin; discriminate Hin|].
    simpl in Hin.
    destruct Hin as [Hx|[Hx|[Hx|[Hx|Hx]]]]; try discriminate Hx.
    destruct (write_complete e (x :: payload)).
    + simpl in Hx. destruct Hx as [Hx|[Hx|Hx]]; try discriminate Hx.
      destruct (wait_ret e) as [status|].
      * destruct (translate_events_shape _ _ Hx) as (_ & _ & H3). discriminate H3.
      * in_cases Hx; discriminate Hx.
    + in_cases Hx; discriminate Hx.
Qed.

(** X4.  When [dup2] fails in the child (line 81), the child prints the
    redirect diagnostic as its last action and exits with code 1: it has
    closed the write end, and it never calls [execlp]. *)
Theorem dup2_failure_exits_1 e argv :
  In (EvDup2 false) (run_trace e argv) ->
  run_end e argv = Exit 1 /\
  exists evs,
    run_trace e argv =
      evs ++ [EvPipe true; EvFork 0; EvClose PipeWr; EvDup2 false;
              EvStderr msg_dup2] /\
    Forall (loader_event (MAX_INPUT_SIZE - 1)) evs.
Proof.
  intros Hin.
  destruct (dup2_inv e argv false Hin)
    as (payload & evs & Hld & _ & _ & _ & Hdup & Hend & Htr).
  rewrite Hend, Htr. unfold child_end, child_events. rewrite Hdup.
  split; [reflexivity|]. exists evs.
  split; [reflexivity|exact (ld_events _ _ _ _ Hld)].
Qed.

Lemma dup2_failure_exits_1_witness :
  run_end (env_with true 0 false (Some 0) (bytes "abc")) args_in = Exit 1.
Proof.
  apply (dup2_failure_exits_1 (env_with true 0 false (Some 0) (bytes "abc")) args_in).
  find_in.
Defined.

(** X5.  A child whose [execlp] succeeds has done, after the loader, exactly
    this: closed the pipe's write end, called [dup2] of the read end onto
    descriptor 0, closed the read end, and called [execlp] with the
    arguments "python3", the script path and the loaded bytes up to their
    first zero byte.  The new program image has the pipe as its standard
    input unless the read end itself was descriptor 0 (a program started
    without a standard input): then [dup2] changes nothing and the close
    of the read end closes descriptor 0. *)
Theorem child_exec_sequence e argv args :
  In (EvExec args true) (run_trace e argv) ->
  exists payload evs,
    loaded e (nth 1 argv "") payload evs /\
    args = [bytes "python3"; bytes PYTHON_SCRIPT; c_string payload] /\
    run_end e argv = Execed args (negb (pipe_fd e 0 =? STDIN_FILENO)) /\
    run_trace e argv =
      evs ++ [EvPipe true; EvFork 0; EvClose PipeWr; EvDup2 true;
              EvClose PipeRd; EvExec args true].
Proof.
  intros Hin.
  destruct (exec_inv e argv args true Hin)
    as (payload & evs & Hld & Hargs & Hok & Hend & Hdup & Htr).
  exists payload, evs. split; [exact Hld|]. split; [exact Hargs|].
  split.
  - rewrite Hend. unfold child_end. rewrite Hdup, Hok, Hargs. reflexivity.
  - rewrite Htr, <- app_assoc. reflexivity.
Qed.

Lemma child_exec_sequence_witness :
  run_end (env_no_stdin true (bytes "abc")) args_in
    = Execed (exec_args (bytes "abc")) false /\
  run_end (env_with true 0 true (Some 0) (bytes "abc")) args_in
    = Execed (exec_args (bytes "abc")) true.
Proof.
  split.
  - destruct (child_exec_sequence (env_no_stdin true (bytes "abc")) args_in
                (exec_args (bytes "abc")) ltac:(find_in))
      as (payload & evs & _ & _ & Hend & _).
    exact Hend.
  - destruct (child_exec_sequence (env_with true 0 true (Some 0) (bytes "abc"))
                args_in (exec_args (bytes "abc")) ltac:(find_in))
      as (payload & evs & _ & _ & Hend & _).
    exact Hend.
Defined.

(** ** Failure of waitpid *)

(** X6.  When [waitpid] fails (line 98), the program prints the wait
    diagnostic as its last action and exits with code 1; it has written the
    whole payload and closed the write end before, and it raises no
    signal. *)
Theorem waitpid_failure_exits_1 e argv :
  In (EvWaitpid None) (run_trace e argv) ->
  run_end e argv = Exit 1 /\
  (exists pre payload,
     run_trace e argv =
       pre ++ [EvWrite payload (Z.of_nat (length payload)); EvClose PipeWr;
               EvWaitpid None; EvStderr msg_wait]) /\
  Forall (fun ev => is_raise ev = false) (run_trace e argv).
Proof.
  intros Hin.
  destruct (wait_inv e argv _ Hin) as (payload & evs & Hpr & Hw & Hwait & Htr & Hend).
  split; [exact Hend|]. split.
  - eexists _, payload. exact Htr.
  - rewrite Htr. pose proof (loaded_no_raise _ _ _ _ (pr_loaded _ _ _ _ Hpr)).
    rewrite !Forall_app. repeat split; auto; repeat constructor.
Qed.

Lemma waitpid_failure_exits_1_witness :
  run_end (env_with true 4242 true None (bytes "abc")) args_in = Exit 1.
Proof.
  apply (waitpid_failure_exits_1 (env_with true 4242 true None (bytes "abc")) args_in).
  find_in.
Defined.

(** ** How a run can end *)

(** A run ends in one of four ways: on an error path before the
    translation, as a child that became the interpreter, in the translation
    of a wait status, or killed inside the write to the pipe. *)
Lemma run_outcome_cases e argv :
  (run_end e argv = Exit 1 /\
   exists pre msg post,
     run_trace e argv = pre ++ EvStderr msg :: post /\
     In msg (diagnostics argv) /\
     (post = [] \/ post = [EvClose PipeWr])) \/
  (exists args b, run_end e argv = Execed args b) \/
  (exists status pre,
     run_trace e argv = pre ++ EvWaitpid (Some status) :: translate_events status /\
     run_end e argv = translate_end e status) \/
  (run_end e argv = Signaled SIGPIPE /\
   exists pre data, run_trace e argv = pre ++ [EvSigpipe data]).
Proof.
  destruct (Nat.lt_ge_cases (length argv) 2) as [Hargc|Hargc].
  { destruct (run_usage e argv Hargc) as [Hend Htr]. left.
    split; [exact Hend|]. exists [], (msg_usage (program_name argv)), [].
    split; [exact Htr|]. split; [left; reflexivity|left; reflexivity]. }
  destruct (run_spec e argv Hargc) as (payload & evs & Hld & Hend & Htr).
  rewrite Hend, Htr.
  destruct payload as [|x payload].
  { left. split; [reflexivity|]. exists evs, msg_no_input, [].
    split; [reflexivity|]. split; [simpl; tauto|left; reflexivity]. }
  unfold tail_end, tail_events, bridge_end, bridge_events.
  destruct (pipe_ok e).
  2:{ left. split; [reflexivity|]. exists (evs ++ [EvPipe false]), msg_pipe, [].
      split; [rewrite <- app_assoc; reflexivity|].
      split; [simpl; tauto|left; reflexivity]. }
  destruct (fork_ret e =? -1).
  { left. split; [reflexivity|].
    exists (evs ++ [EvPipe true; EvFork (fork_ret e)]), msg_fork, [].
    split; [rewrite <- app_assoc; reflexivity|].
    split; [simpl; tauto|left; reflexivity]. }
  destruct (fork_ret e =? 0).
  - unfold child_end, child_events. destruct (dup2_ok e); simpl.
    + destruct (exec_ok e).
      * right. left. eexists _, _. reflexivity.
      * left. split; [reflexivity|].
        exists (evs ++ [EvPipe true; EvFork (fork_ret e); EvClose PipeWr;
                        EvDup2 true; EvClose PipeRd;
                        EvExec (exec_args (x :: payload)) false]), msg_exec, [].
        split; [rewrite <- app_assoc; reflexivity|].
        split; [simpl; tauto|left; reflexivity].
    + left. split; [reflexivity|].
      exists (evs ++ [EvPipe true; EvFork (fork_ret e); EvClose PipeWr;
                      EvDup2 false]), msg_dup2, [].
      split; [rewrite <- app_assoc; reflexivity|].
      split; [simpl; tauto|left; reflexivity].
  - unfold parent_end, parent_events.
    destruct (write_kills e).
    { right. right. right. split; [reflexivity|].
      exists (evs ++ [EvPipe true; EvFork (fork_ret e); EvClose PipeRd]),
        (x :: payload).
      rewrite <- app_assoc. reflexivity. }
    destruct (write_complete e (x :: payload)).
    + destruct (wait_ret e) as [status|].
      * right. right. left.
        exists status,
          (evs ++ [EvPipe true; EvFork (fork_ret e); EvClose PipeRd;
                   EvWrite (x :: payload) (written e (x :: payload));
                   EvClose PipeWr]).
        split; [rewrite <- app_assoc; reflexivity|reflexivity].
      * left. split; [reflexivity|].
        exists (evs ++ [EvPipe true; EvFork (fork_ret e); EvClose PipeRd;
                        EvWrite (x :: payload) (written e (x :: payload));
                        EvClose PipeWr; EvWaitpid None]), msg_wait, [].
        split; [rewrite <- app_assoc; reflexivity|].
        split; [simpl; tauto|left; reflexivity].
    + left. split; [reflexivity|].
      exists (evs ++ [EvPipe true; EvFork (fork_ret e); EvClose PipeRd;
                      EvWrite (x :: payload) (written e (x :: payload))]),
        msg_write, [EvClose PipeWr].
      split; [rewrite <- app_assoc; reflexivity|].
      split; [simpl; tauto|right; reflexivity].
Qed.

(** X7.  The program exits with code 0 only after [waitpid] gave it a wait
    status, and only for a status that says the child exited with code 0 or
    for which the signal it raised was not fatal to it: success is never
    reported without the child's verdict. *)
Theorem exit_0_needs_child_verdict e argv :
  run_end e argv = Exit 0 ->
  exists status,
    In (EvWaitpid (Some status)) (run_trace e argv) /\
    (classify status = ExitedWithCode 0 \/
     exists sig, raised_signal status = Some sig /\ sig_fatal e sig = false).
Proof.
  intros Hzero.
  destruct (run_outcome_cases e argv)
    as [[Hend _]|[(args & b & Hend)|[(status & pre & Htr & Hend)|[Hend _]]]];
    [rewrite Hend in Hzero; discriminate Hzero
    |rewrite Hend in Hzero; discriminate Hzero
    |
    |rewrite Hend in Hzero; discriminate Hzero].
  exists status. split.
  - rewrite Htr. apply in_or_app. right. left. reflexivity.
  - rewrite Hend in Hzero. pose proof (translation_cases e status) as Hcases.
    unfold raised_signal. destruct (classify status) as [code|sig|].
    + destruct (code =? 0) eqn:Hcode;
        [apply Z.eqb_eq in Hcode; subst code; left; reflexivity|].
      right. exists SIGSEGV. split; [reflexivity|].
      destruct Hcases as [_ Hen]. rewrite Hen in Hzero.
      destruct (sig_fatal e SIGSEGV); [discriminate Hzero|reflexivity].
    + right. exists sig. split; [reflexivity|].
      destruct Hcases as [_ Hen]. rewrite Hen in Hzero.
      destruct (sig_fatal e sig); [discriminate Hzero|reflexivity].
    + destruct Hcases as [_ Hen]. rewrite Hen in Hzero. discriminate Hzero.
Qed.

Lemma exit_0_needs_child_verdict_witness :
  exists status,
    In (EvWaitpid (Some status)) (run_trace (env_ok (bytes "abc") 0) args_in) /\
    (classify status = ExitedWithCode 0 \/
     exists sig, raised_signal status = Some sig /\
                 sig_fatal (env_ok (bytes "abc") 0) sig = false).
Proof.
  apply (exit_0_needs_child_verdict (env_ok (bytes "abc") 0) args_in).
  reflexivity.
Defined.

(** X9.  No failure is silent: whenever the program (parent or child) exits
    with code 1, it has printed one of its nine diagnostics, and that line
    is its last event, or its last but one when the write failed and only
    the close of the write end follows. *)
Theorem exit_1_is_announced e argv :
  run_end e argv = Exit 1 ->
  exists pre msg post,
    run_trace e argv = pre ++ EvStderr msg :: post /\
    In msg (diagnostics argv) /\
    (post = [] \/ post = [EvClose PipeWr]).
Proof.
  intros Hone.
  destruct (run_outcome_cases e argv)
    as [[_ Hshape]|[(args & b & Hend)|[(status & pre & Htr & Hend)|[Hend _]]]];
    [exact Hshape
    |rewrite Hend in Hone; discriminate Hone
    |
    |rewrite Hend in Hone; discriminate Hone].
  rewrite Hend in Hone. pose proof (translation_cases e status) as Hcases.
  destruct (classify status) as [code|sig|].
  - exfalso. destruct (code =? 0); destruct Hcases as [_ Hen];
      rewrite Hen in Hone.
    + discriminate Hone.
    + destruct (sig_fatal e SIGSEGV); discriminate Hone.
  - exfalso. destruct Hcases as [_ Hen]. rewrite Hen in Hone.
    destruct (sig_fatal e sig); discriminate Hone.
  - destruct Hcases as [Hev _].
    exists (pre ++ [EvWaitpid (Some status)]), msg_abnormal, [].
    split; [rewrite Htr, Hev, <- app_assoc; reflexivity|].
    split; [simpl; tauto|left; reflexivity].
Qed.

Lemma exit_1_is_announced_witness :
  exists pre msg post,
    run_trace env_no_file args_in = pre ++ EvStderr msg :: post /\
    In msg (diagnostics args_in) /\
    (post = [] \/ post = [EvClose PipeWr]).
Proof.
  apply (exit_1_is_announced env_no_file args_in). reflexivity.
Defined.

(** ** More on read_file *)

Lemma read_loop_trace_shape : forall fuel max_size n data s,
  (length (file_rest s) < fuel)%nat ->
  max_size < SIZE_MODULUS ->
  max_size <= buf_size (input_buffer s) ->
  n = Z.of_nat (length data) ->
  n <= max_size ->
  holds (input_buffer s) data ->
  exists n' s' reads final,
    read_loop fuel max_size n s = (Next n', s') /\
    trace s' = trace s ++ reads ++ [final] /\
    Forall positive_read reads /\
    loop_exit max_size n' final.
Proof.
  induction fuel as [|fuel IH]; intros max_size n data s Hfuel Hmax Hbuf Hn Hle Hh;
    [lia|].
  simpl read_loop. unfold bind at 1.
  rewrite (size_t_small (max_size - n)) by lia.
  destruct (sys_read_run s data (max_size - n) Hh)
    as (Hr1 & Hr2 & Hr3 & b' & Hrun & Hh' & Hs'); [lia|lia|].
  set (r := read_amount (hd_error (plan_rest s)) (max_size - n) (file_rest s)) in *.
  subst n. rewrite Hrun.
  set (n := Z.of_nat (length data)) in *.
  set (chunk1 := firstn (Z.to_nat r) (file_rest s)) in *.
  destruct (Z.ltb_spec 0 r) as [Hpos|Hnonpos].
  - assert (Hlen1 : Z.of_nat (length chunk1) = r).
    { unfold chunk1. rewrite firstn_length_le by lia. lia. }
    rewrite (size_t_small r) by lia.
    rewrite (size_t_small (n + r)) by lia.
    destruct (Z.leb_spec max_size (n + r)) as [Hfull|Hmore].
    + unfold bind, fprintf_stderr, log, ret. simpl.
      eexists (n + r), _, [EvRead n (max_size - n) r], (EvStderr truncation_warning).
      split; [reflexivity|]. simpl.
      split; [rewrite <- app_assoc; reflexivity|].
      split; [repeat constructor; exact Hpos|]. left. split; [reflexivity|lia].
    + match goal with
      | |- context [read_loop _ _ _ ?s1] => set (s1' := s1)
      end.
      destruct (IH max_size (n + r) (data ++ chunk1) s1')
        as (n' & s' & reads & final & Hout & Htrace & Hreads & Hexit).
      * subst s1'. simpl. rewrite length_skipn. lia.
      * exact Hmax.
      * subst s1'. simpl. lia.
      * rewrite length_app. lia.
      * lia.
      * exact Hh'.
      * exists n', s', (EvRead n (max_size - n) r :: reads), final.
        split; [exact Hout|].
        split; [rewrite Htrace; subst s1'; simpl; rewrite <- app_assoc; reflexivity|].
        split; [constructor; [exact Hpos|exact Hreads]|exact Hexit].
  - unfold ret.
    eexists n, _, [], (EvRead n (max_size - n) r).
    split; [reflexivity|]. simpl. split; [reflexivity|].
    split; [constructor|]. right. exists r. split; [reflexivity|lia].
Qed.

(** The events of [read_file]: a failed [open] alone, or [open], the loop's
    events and the [close]. *)
Lemma read_file_events e filename max_size s :
  0 <= max_size < SIZE_MODULUS ->
  max_size <= buf_size (input_buffer s) ->
  exists n s' evs,
    read_file e filename max_size s = (Next n, s') /\
    trace s' = trace s ++ evs /\
    match fs e filename with
    | None => n = 0 /\ evs = [EvOpen filename false]
    | Some _ =>
        exists reads final,
          evs = EvOpen filename true :: reads ++ [final; EvClose FileFd] /\
          Forall positive_read reads /\
          loop_exit max_size n final
    end.
Proof.
  intros Hmax Hbuf. unfold read_file, bind at 1, sys_open.
  destruct (fs e filename) as [content|].
  - replace (Z.of_N (file_fd e) =? -1) with false
      by (symmetry; apply Z.eqb_neq; lia).
    unfold bind at 1.
    match goal with
    | |- context [read_loop _ _ _ ?s1] => set (s1' := s1)
    end.
    destruct (read_loop_trace_shape (S (length (file_rest s1'))) max_size 0 [] s1')
      as (n & s' & reads & final & Hout & Htrace & Hreads & Hexit);
      [lia|lia|exact Hbuf|reflexivity|lia|apply holds_nil; simpl; lia|].
    rewrite Hout. unfold bind, sys_close, log, ret. simpl.
    eexists n, _, _. split; [reflexivity|]. simpl.
    split; [rewrite Htrace; subst s1'; simpl; rewrite <- !app_assoc; reflexivity|].
    exists reads, final. split; [reflexivity|].
    split; [exact Hreads|exact Hexit].
  - simpl. unfold ret. eexists 0, _, _. split; [reflexivity|]. simpl.
    split; [reflexivity|]. split; reflexivity.
Qed.




(** X11.  A [read] that fails is handled like the end of the file: when a
    [read] returns 0 or -1, [read_file] stops there, returns the number of
    bytes accumulated before that call (its offset), closes the file, and
    prints nothing: neither a diagnostic nor the warning. *)
Theorem failed_read_ends_like_eof e filename max_size s off count r :
  0 <= max_size < SIZE_MODULUS ->
  max_size <= buf_size (input_buffer s) ->
  r <= 0 ->
  forall evs,
    trace (snd (read_file e filename max_size s)) = trace s ++ evs ->
    In (EvRead off count r) evs ->
    fst (read_file e filename max_size s) = Next off /\
    exists reads,
      evs = EvOpen filename true :: reads ++ [EvRead off count r; EvClose FileFd] /\
      Forall positive_read reads.
Proof.
  intros Hmax Hbuf Hr evs Htr Hin.
  destruct (read_file_events e filename max_size s Hmax Hbuf)
    as (n & s' & evs' & Hrun & Htrace & Hshape).
  rewrite Hrun in *. simpl in Htr. rewrite Htrace in Htr.
  apply app_inv_head in Htr. subst evs'. simpl.
  destruct (fs e filename).
  2:{ destruct Hshape as [_ ->]. in_cases Hin; discriminate Hin. }
  destruct Hshape as (reads & final & -> & Hreads & Hexit).
  assert (Hfinal : final = EvRead off count r /\ n = off).
  { simpl in Hin. destruct Hin as [Hx|Hin]; [discriminate Hx|].
    apply in_app_or in Hin. destruct Hin as [Hin|Hin].
    - exfalso. rewrite Forall_forall in Hreads.
      specialize (Hreads _ Hin). simpl in Hreads. lia.
    - simpl in Hin. destruct Hin as [Hx|[Hx|[]]]; [|discriminate Hx].
      destruct Hexit as [[-> _]|(r' & Hf & _)]; [discriminate Hx|].
      split; [exact Hx|]. rewrite Hf in Hx. injection Hx as Hn _ _. exact Hn. }
  destruct Hfinal as [-> ->]. split; [reflexivity|].
  exists reads. split; [reflexivity|exact Hreads].
Qed.

Lemma failed_read_ends_like_eof_witness :
  fst (read_file (env_read_error (bytes "abcdef")) "in" 5 initial_state) = Next 2.
Proof.
  apply (failed_read_ends_like_eof (env_read_error (bytes "abcdef")) "in" 5
           initial_state 2 3 (-1))
    with (evs := [EvOpen "in" true; EvRead 0 5 2; EvRead 2 3 (-1); EvClose FileFd]).
  - vm_compute. split; [discriminate|reflexivity].
  - vm_compute. discriminate.
  - lia.
  - reflexivity.
  - find_in.
Defined.

(** X12.  Short reads are put together again: whatever sizes the reads
    come in, as long as none fails, [read_file] returns the smaller of
    [max_size] and the file's length, and leaves that many leading bytes of
    the file, in order, at the start of the array. *)
Theorem short_reads_are_reassembled e filename max_size s content :
  0 <= max_size < SIZE_MODULUS ->
  max_size <= buf_size (input_buffer s) ->
  fs e filename = Some content ->
  Forall no_fail (read_plan e) ->
  exists s',
    read_file e filename max_size s
      = (Next (Z.min max_size (Z.of_nat (length content))), s') /\
    buf_load (input_buffer s') 0
             (Z.to_nat (Z.min max_size (Z.of_nat (length content))))
      = Some (firstn (Z.to_nat max_size) content).
Proof.
  intros Hmax Hbuf Hfs Hnf.
  destruct (read_file_spec e filename max_size s) as
    (n & payload & evs & s' & Hout & Hn & Hnmax & Hholds & _ & _ & _ & _ & _ & _ & Hfile);
    [exact Hmax|exact Hbuf|].
  rewrite Hfs in Hfile. destruct Hfile as [_ Hall]. specialize (Hall Hnf).
  assert (Hlen : Z.of_nat (length payload)
                 = Z.min max_size (Z.of_nat (length content))).
  { rewrite Hall, length_firstn. lia. }
  exists s'. rewrite Hout, <- Hlen, Nat2Z.id, <- Hall. split.
  - f_equal. f_equal. exact Hn.
  - apply holds_load. exact Hholds.
Qed.

Lemma short_reads_are_reassembled_witness :
  exists s',
    read_file (env_bytewise (bytes "abcde")) "in" 9 initial_state
      = (Next (Z.min 9 (Z.of_nat (length (bytes "abcde")))), s') /\
    buf_load (input_buffer s') 0
             (Z.to_nat (Z.min 9 (Z.of_nat (length (bytes "abcde")))))
      = Some (firstn (Z.to_nat 9) (bytes "abcde")).
Proof.
  apply (short_reads_are_reassembled (env_bytewise (bytes "abcde")) "in" 9
           initial_state (bytes "abcde")).
  - vm_compute. split; [discriminate|reflexivity].
  - vm_compute. discriminate.
  - reflexivity.
  - repeat constructor; discriminate.
Defined.

Lemma exact_fit_also_warns_witness :
  exists s' evs,
    read_file (env_ok (bytes "abc") 0) "in" 3 initial_state = (Next 3, s') /\
    buf_load (input_buffer s') 0 (length (bytes "abc")) = Some (bytes "abc") /\
    trace s' = trace initial_state ++ evs /\
    In (EvStderr truncation_warning) evs.
Proof.
  apply (exact_fit_also_warns (env_ok (bytes "abc") 0) "in" 3 initial_state (bytes "abc")).
  - vm_compute. split; reflexivity.
  - vm_compute. discriminate.
  - reflexivity.
  - constructor.
  - reflexivity.
Defined.

(** ** More on the transfer *)

(** X14.  What the parent hands to [write] is always a leading part of the
    input file: for every write in a run, the file named by [argv[1]] could
    be opened, the data written is a non-empty prefix of its bytes of at
    most [MAX_INPUT_SIZE - 1] bytes, and the count returned lies between -1
    and the length of the data. *)
Theorem written_bytes_are_prefix_of_file e argv data r :
  In (EvWrite data r) (run_trace e argv) ->
  exists content rest,
    fs e (nth 1 argv "") = Some content /\
    content = data ++ rest /\
    0 < Z.of_nat (length data) <= MAX_INPUT_SIZE - 1 /\
    -1 <= r <= Z.of_nat (length data).
Proof.
  intros Hin.
  destruct (parent_run_inv e argv _ Hin eq_refl) as (payload & evs & Hpr).
  destruct (parent_write_inv _ _ _ _ _ _ Hpr Hin) as [-> ->].
  pose proof (pr_loaded _ _ _ _ Hpr) as Hld.
  pose proof (pr_nonempty _ _ _ _ Hpr) as Hne.
  pose proof (ld_file _ _ _ _ Hld) as Hfile.
  destruct (fs e (nth 1 argv "")) as [content|].
  - destruct Hfile as [[rest Hrest] _]. exists content, rest.
    split; [reflexivity|]. split; [exact Hrest|]. split.
    + pose proof (ld_size _ _ _ _ Hld). destruct payload; [contradiction|].
      simpl length in *. lia.
    + apply written_range.
  - destruct Hfile as [Hnil _]. contradiction.
Qed.

Lemma written_bytes_are_prefix_of_file_witness :
  exists content rest,
    fs (env_short_write 2 (bytes "abc")) (nth 1 args_in "") = Some content /\
    content = bytes "abc" ++ rest /\
    0 < Z.of_nat (length (bytes "abc")) <= MAX_INPUT_SIZE - 1 /\
    -1 <= 2 <= Z.of_nat (length (bytes "abc")).
Proof.
  apply (written_bytes_are_prefix_of_file (env_short_write 2 (bytes "abc")) args_in).
  find_in.
Defined.

(** ** More on parent and child together *)

(** What a parent does with a child that exited with code 1 before or
    instead of running the script. *)
Lemma parent_of_failed_child e argv image_status :
  fst (child_of e argv) = Exit 1 ->
  forall status,
    In (EvWaitpid (Some status)) (snd (parent_of e image_status argv)) ->
    status = W_EXITCODE 1 0 /\
    (exists pre, snd (parent_of e image_status argv) =
                 pre ++ [EvWaitpid (Some status); EvStderr msg_vulnerability;
                         EvRaise SIGSEGV]) /\
    fst (parent_of e image_status argv)
      = (if sig_fatal e SIGSEGV then Signaled SIGSEGV else Exit 0).
Proof.
  intros Hchild status Hin. unfold parent_of in *. rewrite Hchild in *.
  change (child_status image_status (Exit 1)) with (W_EXITCODE 1 0) in *.
  set (ep := with_wait e (option_map (fun _ => W_EXITCODE 1 0) (wait_ret e))) in *.
  unfold observe in Hin. simpl snd in Hin.
  destruct (wait_inv ep argv _ Hin) as (p & ev & Hpr & Hw & Hwait & Htrp & Hendp).
  assert (Hst : status = W_EXITCODE 1 0).
  { simpl in Hwait. destruct (wait_ret e); simpl in Hwait; [|discriminate Hwait].
    injection Hwait as <-. reflexivity. }
  subst status. split; [reflexivity|].
  pose proof (translation_cases ep (W_EXITCODE 1 0)) as Hcases.
  change (classify (W_EXITCODE 1 0)) with (ExitedWithCode 1) in Hcases.
  simpl in Hcases. destruct Hcases as [Hev Hen].
  split.
  - unfold observe. simpl snd. rewrite Htrp, Hev.
    exists ((ev ++ [EvPipe true; EvFork (fork_ret ep); EvClose PipeRd])
            ++ [EvWrite p (Z.of_nat (length p)); EvClose PipeWr]).
    rewrite <- !app_assoc. reflexivity.
  - unfold observe. simpl fst. rewrite Hendp. exact Hen.
Qed.

(** X15.  A child that cannot rebind its standard input ([dup2] fails,
    line 81) exits with code 1, and a parent that reads its wait status
    takes it for a detected vulnerability: it prints the vulnerability
    message and raises SIGSEGV as its last actions, ending by SIGSEGV when
    that signal is fatal and with code 0 otherwise. *)
Theorem dup2_failure_reported_as_vulnerability e argv image_status :
  In (EvDup2 false) (snd (child_of e argv)) ->
  fst (child_of e argv) = Exit 1 /\
  forall status,
    In (EvWaitpid (Some status)) (snd (parent_of e image_status argv)) ->
    status = W_EXITCODE 1 0 /\
    (exists pre, snd (parent_of e image_status argv) =
                 pre ++ [EvWaitpid (Some status); EvStderr msg_vulnerability;
                         EvRaise SIGSEGV]) /\
    fst (parent_of e image_status argv)
      = (if sig_fatal e SIGSEGV then Signaled SIGSEGV else Exit 0).
Proof.
  intros Hin. unfold child_of, observe in Hin. simpl snd in Hin.
  destruct (dup2_inv _ _ _ Hin)
    as (payload & evs & Hld & _ & _ & _ & Hdup & Hend & _).
  assert (Hchild : fst (child_of e argv) = Exit 1).
  { unfold child_of, observe. simpl fst. rewrite Hend. unfold child_end.
    rewrite Hdup. reflexivity. }
  split; [exact Hchild|].
  exact (parent_of_failed_child e argv image_status Hchild).
Qed.

Lemma dup2_failure_reported_as_vulnerability_witness :
  fst (parent_of (env_dup2_fails (bytes "abc")) 0 args_in) = Signaled SIGSEGV.
Proof.
  destruct (dup2_failure_reported_as_vulnerability
              (env_dup2_fails (bytes "abc")) args_in 0 ltac:(find_in))
    as [_ Hparent].
  destruct (Hparent 256 ltac:(find_in)) as (_ & _ & Hend).
  exact Hend.
Defined.

(** ** More on main as a whole *)

(** X17.  Truncation is not an error for [main]: for a file longer than
    [MAX_INPUT_SIZE - 1] bytes whose reads do not fail, the run prints the
    truncation warning, goes on to create the pipe, and any write it makes
    carries exactly the first [MAX_INPUT_SIZE - 1] bytes of the file. *)
Theorem long_file_is_forwarded_truncated e argv content :
  (2 <= length argv)%nat ->
  fs e (nth 1 argv "") = Some content ->
  Forall no_fail (read_plan e) ->
  MAX_INPUT_SIZE - 1 < Z.of_nat (length content) ->
  In (EvStderr truncation_warning) (run_trace e argv) /\
  In (EvPipe (pipe_ok e)) (run_trace e argv) /\
  forall data r,
    In (EvWrite data r) (run_trace e argv) ->
    data = firstn (Z.to_nat (MAX_INPUT_SIZE - 1)) content.
Proof.
  intros Hargc Hfs Hnf Hlong.
  destruct (run_spec e argv Hargc) as (payload & evs & Hld & Hend & Htr).
  pose proof (ld_file _ _ _ _ Hld) as Hfile. rewrite Hfs in Hfile.
  destruct Hfile as [_ Hall]. specialize (Hall Hnf).
  pose proof MAX_INPUT_SIZE_fits as Hfits.
  assert (Hlen : Z.of_nat (length payload) = MAX_INPUT_SIZE - 1).
  { rewrite Hall, firstn_length_exact by lia. lia. }
  split; [|split].
  - rewrite Htr. apply in_or_app. left. apply (ld_warning _ _ _ _ Hld). exact Hlen.
  - rewrite Htr. apply in_or_app. right.
    destruct payload as [|x payload]; [simpl in Hlen; lia|].
    left. reflexivity.
  - intros data r Hin.
    destruct (parent_run_inv e argv _ Hin eq_refl) as (payload' & evs' & Hpr).
    destruct (parent_write_inv _ _ _ _ _ _ Hpr Hin) as [-> _].
    pose proof (ld_file _ _ _ _ (pr_loaded _ _ _ _ Hpr)) as Hfile'.
    rewrite Hfs in Hfile'. destruct Hfile' as [_ Hall']. exact (Hall' Hnf).
Qed.

Lemma long_file_is_forwarded_truncated_witness :
  In (EvStderr truncation_warning)
     (run_trace (env_ok (file_of_As 1048576) 0) args_in).
Proof.
  refine (proj1 (long_file_is_forwarded_truncated
                   (env_ok (file_of_As 1048576) 0) args_in (file_of_As 1048576)
                   _ _ _ _)).
  - unfold args_in. simpl length. lia.
  - reflexivity.
  - constructor.
  - unfold file_of_As. rewrite repeat_length, N_nat_Z.
    unfold MAX_INPUT_SIZE. lia.
Defined.

Lemma occurrences_app p a b :
  occurrences p (a ++ b) = (occurrences p a + occurrences p b)%nat.
Proof. unfold occurrences. rewrite filter_app, length_app. reflexivity. Qed.

Lemma occurrences_none p tr :
  Forall (fun ev => p ev = false) tr -> occurrences p tr = 0%nat.
Proof.
  induction 1 as [|ev tr Hev _ IH]; [reflexivity|].
  unfold occurrences in *. simpl. rewrite Hev. exact IH.
Qed.

Lemma loader_event_plain max_size ev :
  loader_event max_size ev ->
  is_pipe ev = false /\ is_fork ev = false /\ is_write ev = false /\
  is_waitpid ev = false /\ is_raise ev = false.
Proof. destruct ev; simpl; intros H; try contradiction; auto 6. Qed.

(** X18.  A run is one-shot: it creates at most one pipe, forks at most
    once, writes to the pipe at most once, waits at most once and raises at
    most one signal. *)
Theorem run_is_one_shot e argv :
  (occurrences is_pipe (run_trace e argv) <= 1)%nat /\
  (occurrences is_fork (run_trace e argv) <= 1)%nat /\
  (occurrences is_write (run_trace e argv) <= 1)%nat /\
  (occurrences is_waitpid (run_trace e argv) <= 1)%nat /\
  (occurrences is_raise (run_trace e argv) <= 1)%nat.
Proof.
  destruct (Nat.lt_ge_cases (length argv) 2) as [Hargc|Hargc].
  { destruct (run_usage e argv Hargc) as [_ ->]. cbv. repeat split; lia. }
  destruct (run_spec e argv Hargc) as (payload & evs & Hld & _ & ->).
  pose proof (ld_events _ _ _ _ Hld) as Hevs.
  rewrite !occurrences_app.
  rewrite (occurrences_none is_pipe evs), (occurrences_none is_fork evs),
    (occurrences_none is_write evs), (occurrences_none is_waitpid evs),
    (occurrences_none is_raise evs);
    try (eapply Forall_impl; [|exact Hevs]; intros ev Hev;
         apply (loader_event_plain _ _ Hev)).
  destruct payload as [|x payload]; [cbv; repeat split; lia|].
  unfold tail_events, bridge_events, child_events, parent_events,
    translate_events.
  destruct (pipe_ok e); [|cbv; repeat split; lia].
  destruct (fork_ret e =? -1); [cbv; repeat split; lia|].
  destruct (fork_ret e =? 0).
  - destruct (dup2_ok e), (exec_ok e); cbv; repeat split; lia.
  - destruct (write_kills e); [cbv; repeat split; lia|].
    destruct (write_complete e (x :: payload)); [|cbv; repeat split; lia].
    destruct (wait_ret e) as [status|]; [|cbv; repeat split; lia].
    destruct (WIFEXITED status), (WIFSIGNALED status),
      (negb (WEXITSTATUS status =? 0)); cbv; repeat split; lia.
Qed.
